(** * Orchestrator state manager: data model, scheduling and task lifecycle

    A shallow embedding of [scripts/core/state-manager.ts] and of the record
    shapes of [types.ts] (the zod schemas), followed by the properties of
    the scheduling engine, the task lifecycle, the phase state machine and
    the checkpoint manager.

    Conventions of the embedding.
    - A JavaScript [number] that the modelled code uses as a counter, a
      length or a number of milliseconds is a [Z].  The one non-integer
      computation, the division inside the completion percentage, is a
      parameter of the development (see [Math_round_percent]).
    - An ISO-8601 timestamp string is the [Z] of epoch milliseconds it
      denotes; every [new Date()] read of an operation is an explicit
      argument of the operation, in the order the code reads the clock.
    - Objects are mutated in place in the source; here every operation takes
      the state and returns the new state.  A task found by
      [state.tasks.find] is an alias of the array element, so a write to the
      task is a write at the index where it was found.
    - The record types carry what the zod schemas check (enumerations,
      required and optional fields), so schema validation of a value of
      these types succeeds and returns it. *)

From Stdlib Require Import ZArith String Ascii DecimalString DecimalNat.
From stdpp Require Import gmap strings list fin_maps.

Open Scope string_scope.
Open Scope list_scope.
Open Scope Z_scope.

(** ** Enumerations of [types.ts] *)

Inductive Phase :=
  | Ideation | Specification | Architecture | Planning
  | Implementation | Testing | Deployment | Complete.

Inductive TaskStatus := Pending | InProgress | Completed | Blocked | Skipped.

Inductive TaskPriority := Critical | High | Medium | Low.

Inductive AgentType :=
  | Orchestrator | SpecWriter | Architect | TaskPlanner | FrontendDev
  | BackendDev | DatabaseExpert | ApiDesigner | DevopsEngineer
  | TestEngineer | CodeReviewer | SecurityAuditor | PerformanceAnalyst
  | BugFixer | Documentation | Refactorer.

Inductive PhaseStatusTag := PhasePending | PhaseInProgress | PhaseComplete | PhaseSkipped.

Inductive AutonomyLevel := AutonomyLow | AutonomyMedium | AutonomyHigh | AutonomyFull.

Global Instance Phase_eq_dec : EqDecision Phase.
Proof. solve_decision. Defined.
Global Instance TaskStatus_eq_dec : EqDecision TaskStatus.
Proof. solve_decision. Defined.
Global Instance TaskPriority_eq_dec : EqDecision TaskPriority.
Proof. solve_decision. Defined.
Global Instance AgentType_eq_dec : EqDecision AgentType.
Proof. solve_decision. Defined.
Global Instance PhaseStatusTag_eq_dec : EqDecision PhaseStatusTag.
Proof. solve_decision. Defined.

Definition Phase_index (p : Phase) : nat :=
  match p with
  | Ideation => 0 | Specification => 1 | Architecture => 2 | Planning => 3
  | Implementation => 4 | Testing => 5 | Deployment => 6 | Complete => 7
  end%nat.

Definition Phase_of_index (n : nat) : Phase :=
  match n with
  | 0 => Ideation | 1 => Specification | 2 => Architecture | 3 => Planning
  | 4 => Implementation | 5 => Testing | 6 => Deployment | _ => Complete
  end%nat.

Lemma Phase_of_index_index (p : Phase) : Phase_of_index (Phase_index p) = p.
Proof. by destruct p. Qed.

Global Instance Phase_countable : Countable Phase :=
  inj_countable' Phase_index Phase_of_index Phase_of_index_index.

(** The string a phase is serialised as (the zod enum literal). *)
Definition Phase_name (p : Phase) : string :=
  match p with
  | Ideation => "ideation" | Specification => "specification"
  | Architecture => "architecture" | Planning => "planning"
  | Implementation => "implementation" | Testing => "testing"
  | Deployment => "deployment" | Complete => "complete"
  end.

(** ** Records of [types.ts] *)

Definition Timestamp := Z.

Record PhaseStatus := mkPhaseStatus {
  ps_status : PhaseStatusTag;
  ps_startedAt : option Timestamp;
  ps_completedAt : option Timestamp
}.

Record Task := mkTask {
  t_id : string;
  t_title : string;
  t_description : string;
  t_status : TaskStatus;
  t_priority : TaskPriority;
  t_agent : AgentType;
  t_epic : option string;
  t_story : option string;
  t_dependencies : list string;
  t_outputs : list string;
  t_acceptanceCriteria : list string;
  t_estimatedMinutes : option Z;
  t_actualMinutes : option Z;
  t_attempts : Z;
  t_maxAttempts : Z;
  t_startedAt : option Timestamp;
  t_completedAt : option Timestamp;
  t_error : option string
}.

Record Blocker := mkBlocker {
  b_taskId : string;
  b_reason : string;
  b_since : Timestamp;
  b_attempts : Z
}.

Record Decision := mkDecision {
  d_id : string;
  d_topic : string;
  d_decision : string;
  d_rationale : string;
  d_alternatives : option (list string);
  d_decidedAt : Timestamp;
  d_decidedBy : AgentType
}.

Record Checkpoint := mkCheckpoint {
  cp_id : string;
  cp_timestamp : Timestamp;
  cp_phase : Phase;
  cp_tasksCompleted : Z;
  cp_gitCommit : option string;
  cp_description : option string
}.

(** A value stored in the free-form [details] record of a history entry.
    The entries written by the state manager hold scalars only;
    [JUndefined] is a property whose value is [undefined] (for instance
    [actualMinutes] of a task that was never started). *)
Inductive JValue :=
  | JUndefined
  | JBool (b : bool)
  | JNum (n : Z)
  | JStr (s : string).

Record HistoryEntry := mkHistoryEntry {
  h_timestamp : Timestamp;
  h_action : string;
  h_agent : option AgentType;
  h_taskId : option string;
  h_details : option (list (string * JValue))
}.

Record Progress := mkProgress {
  pr_total : Z;
  pr_completed : Z;
  pr_inProgress : Z;
  pr_blocked : Z;
  pr_skipped : Z;
  pr_percentage : Z
}.

Record CurrentTask := mkCurrentTask {
  ct_id : string;
  ct_agent : AgentType;
  ct_startedAt : Timestamp;
  ct_attempt : Z
}.

Record Frontend := mkFrontend {
  fe_framework : string;
  fe_version : option string;
  fe_buildTool : option string;
  fe_styling : option string;
  fe_stateManagement : option string;
  fe_router : option string;
  fe_componentLibrary : option string
}.

Record Backend := mkBackend {
  be_runtime : string;
  be_version : option string;
  be_framework : option string;
  be_orm : option string;
  be_database : option string
}.

Record TechStack := mkTechStack {
  ts_frontend : option Frontend;
  ts_backend : option Backend;
  ts_testing : option (option string * option string * option string);
  ts_deployment : option (option string * option string * option string)
}.

Record Metrics := mkMetrics {
  m_totalTime : option string;
  m_avgTaskTime : option string;
  m_retryRate : option Z;
  m_testCoverage : option Z;
  m_lintErrors : option Z;
  m_typeErrors : option Z
}.

Record Config := mkConfig {
  cfg_autonomyLevel : AutonomyLevel;
  cfg_checkpointFrequency : Z;
  cfg_autoCommit : bool;
  cfg_maxParallelTasks : Z;
  cfg_maxRetries : Z
}.

Record Project := mkProject {
  p_id : string;
  p_name : string;
  p_slug : string;
  p_description : string;
  p_created : Timestamp;
  p_updated : Timestamp;
  p_version : string
}.

Record ProjectState := mkProjectState {
  project : Project;
  phase : Phase;
  phases : gmap Phase PhaseStatus;
  techStack : option TechStack;
  tasks : list Task;
  currentTasks : list CurrentTask;
  progress : Progress;
  blockers : list Blocker;
  decisions : list Decision;
  checkpoints : list Checkpoint;
  history : list HistoryEntry;
  metrics : option Metrics;
  config : option Config
}.

(** ** Field updates (assignments to a property of the state or of a task) *)

Definition set_phase (v : Phase) (s : ProjectState) : ProjectState :=
  mkProjectState (project s) v (phases s) (techStack s) (tasks s)
    (currentTasks s) (progress s) (blockers s) (decisions s) (checkpoints s)
    (history s) (metrics s) (config s).

Definition set_phases (v : gmap Phase PhaseStatus) (s : ProjectState) : ProjectState :=
  mkProjectState (project s) (phase s) v (techStack s) (tasks s)
    (currentTasks s) (progress s) (blockers s) (decisions s) (checkpoints s)
    (history s) (metrics s) (config s).

Definition set_tasks (v : list Task) (s : ProjectState) : ProjectState :=
  mkProjectState (project s) (phase s) (phases s) (techStack s) v
    (currentTasks s) (progress s) (blockers s) (decisions s) (checkpoints s)
    (history s) (metrics s) (config s).

Definition set_currentTasks (v : list CurrentTask) (s : ProjectState) : ProjectState :=
  mkProjectState (project s) (phase s) (phases s) (techStack s) (tasks s)
    v (progress s) (blockers s) (decisions s) (checkpoints s)
    (history s) (metrics s) (config s).

Definition set_progress (v : Progress) (s : ProjectState) : ProjectState :=
  mkProjectState (project s) (phase s) (phases s) (techStack s) (tasks s)
    (currentTasks s) v (blockers s) (decisions s) (checkpoints s)
    (history s) (metrics s) (config s).

Definition set_blockers (v : list Blocker) (s : ProjectState) : ProjectState :=
  mkProjectState (project s) (phase s) (phases s) (techStack s) (tasks s)
    (currentTasks s) (progress s) v (decisions s) (checkpoints s)
    (history s) (metrics s) (config s).

Definition set_checkpoints (v : list Checkpoint) (s : ProjectState) : ProjectState :=
  mkProjectState (project s) (phase s) (phases s) (techStack s) (tasks s)
    (currentTasks s) (progress s) (blockers s) (decisions s) v
    (history s) (metrics s) (config s).

Definition set_history (v : list HistoryEntry) (s : ProjectState) : ProjectState :=
  mkProjectState (project s) (phase s) (phases s) (techStack s) (tasks s)
    (currentTasks s) (progress s) (blockers s) (decisions s) (checkpoints s)
    v (metrics s) (config s).

Definition set_project (v : Project) (s : ProjectState) : ProjectState :=
  mkProjectState v (phase s) (phases s) (techStack s) (tasks s)
    (currentTasks s) (progress s) (blockers s) (decisions s) (checkpoints s)
    (history s) (metrics s) (config s).

Definition set_updated (v : Timestamp) (p : Project) : Project :=
  mkProject (p_id p) (p_name p) (p_slug p) (p_description p) (p_created p)
    v (p_version p).

Definition set_t_status (v : TaskStatus) (t : Task) : Task :=
  mkTask (t_id t) (t_title t) (t_description t) v (t_priority t) (t_agent t)
    (t_epic t) (t_story t) (t_dependencies t) (t_outputs t)
    (t_acceptanceCriteria t) (t_estimatedMinutes t) (t_actualMinutes t)
    (t_attempts t) (t_maxAttempts t) (t_startedAt t) (t_completedAt t)
    (t_error t).

Definition set_t_startedAt (v : option Timestamp) (t : Task) : Task :=
  mkTask (t_id t) (t_title t) (t_description t) (t_status t) (t_priority t)
    (t_agent t) (t_epic t) (t_story t) (t_dependencies t) (t_outputs t)
    (t_acceptanceCriteria t) (t_estimatedMinutes t) (t_actualMinutes t)
    (t_attempts t) (t_maxAttempts t) v (t_completedAt t) (t_error t).

Definition set_t_completedAt (v : option Timestamp) (t : Task) : Task :=
  mkTask (t_id t) (t_title t) (t_description t) (t_status t) (t_priority t)
    (t_agent t) (t_epic t) (t_story t) (t_dependencies t) (t_outputs t)
    (t_acceptanceCriteria t) (t_estimatedMinutes t) (t_actualMinutes t)
    (t_attempts t) (t_maxAttempts t) (t_startedAt t) v (t_error t).

Definition set_t_attempts (v : Z) (t : Task) : Task :=
  mkTask (t_id t) (t_title t) (t_description t) (t_status t) (t_priority t)
    (t_agent t) (t_epic t) (t_story t) (t_dependencies t) (t_outputs t)
    (t_acceptanceCriteria t) (t_estimatedMinutes t) (t_actualMinutes t)
    v (t_maxAttempts t) (t_startedAt t) (t_completedAt t) (t_error t).

Definition set_t_actualMinutes (v : option Z) (t : Task) : Task :=
  mkTask (t_id t) (t_title t) (t_description t) (t_status t) (t_priority t)
    (t_agent t) (t_epic t) (t_story t) (t_dependencies t) (t_outputs t)
    (t_acceptanceCriteria t) (t_estimatedMinutes t) v
    (t_attempts t) (t_maxAttempts t) (t_startedAt t) (t_completedAt t)
    (t_error t).

Definition set_t_error (v : option string) (t : Task) : Task :=
  mkTask (t_id t) (t_title t) (t_description t) (t_status t) (t_priority t)
    (t_agent t) (t_epic t) (t_story t) (t_dependencies t) (t_outputs t)
    (t_acceptanceCriteria t) (t_estimatedMinutes t) (t_actualMinutes t)
    (t_attempts t) (t_maxAttempts t) (t_startedAt t) (t_completedAt t) v.

Definition set_ps_status (v : PhaseStatusTag) (p : PhaseStatus) : PhaseStatus :=
  mkPhaseStatus v (ps_startedAt p) (ps_completedAt p).

Definition set_ps_startedAt (v : option Timestamp) (p : PhaseStatus) : PhaseStatus :=
  mkPhaseStatus (ps_status p) v (ps_completedAt p).

Definition set_ps_completedAt (v : option Timestamp) (p : PhaseStatus) : PhaseStatus :=
  mkPhaseStatus (ps_status p) (ps_startedAt p) v.

(** ** Array and Map primitives used by the state manager *)

(** [Array.prototype.sort(cmp)].  The sort is stable (ECMAScript 2019):
    elements that compare equal keep their relative order, so for a
    comparator that orders by a key, as the one used here, the result is
    determined.  It is computed by insertion, last element first: an element
    is placed in front of the first element it does not compare greater
    than, hence in front of the later elements that compare equal. *)
Fixpoint sort_insert {A : Type} (cmp : A → A → Z) (x : A) (l : list A) : list A :=
  match l with
  | [] => [x]
  | y :: r =>
      if cmp x y <=? 0 then x :: y :: r
      else y :: sort_insert cmp x r
  end.

Definition Array_sort {A : Type} (cmp : A → A → Z) (l : list A) : list A :=
  foldr (sort_insert cmp) [] l.

(** A JavaScript [Map]: keys are iterated in the order of their first
    insertion, and [set] on a present key keeps the key's position. *)
Fixpoint Map_get {K V : Type} `{EqDecision K} (k : K) (m : list (K * V)) : option V :=
  match m with
  | [] => None
  | (k', v) :: r => if decide (k = k') then Some v else Map_get k r
  end.

Fixpoint Map_set {K V : Type} `{EqDecision K} (k : K) (v : V)
    (m : list (K * V)) : list (K * V) :=
  match m with
  | [] => [(k, v)]
  | (k', v') :: r =>
      if decide (k = k') then (k, v) :: r else (k', v') :: Map_set k v r
  end.

(** [x || d] on a possibly absent number: [undefined] and [0] are falsy. *)
Definition number_or (x : option Z) (d : Z) : Z :=
  match x with
  | Some v => if v =? 0 then d else v
  | None => d
  end.

(** [String(n).padStart(width, '0')] for a natural number [n]. *)
Definition String_of_nat (n : nat) : string :=
  NilZero.string_of_uint (Nat.to_uint n).

Fixpoint zeros (k : nat) : string :=
  match k with
  | O => EmptyString
  | S k' => String "0"%char (zeros k')
  end.

Definition padStart0 (width : nat) (s : string) : string :=
  String.append (zeros (width - String.length s)) s.

(** ** The state manager *)

Inductive Error :=
  | StateNotFound
  | CheckpointNotFound (checkpointId : string).

(** The documents the manager keeps under its base path: the project state
    file and one snapshot per file name in the checkpoints directory.  A
    document is recorded as the state that parsing and validating its text
    yields. *)
Record Disk := mkDisk {
  stateFile : option ProjectState;
  checkpointFiles : gmap string ProjectState
}.

Definition is_undefined (v : JValue) : bool :=
  match v with JUndefined => true | _ => false end.

(** [JSON.parse(JSON.stringify(state))]: a property whose value is
    [undefined] is not written, everything else is read back as it was. *)
Definition JSON_details (d : list (string * JValue)) : list (string * JValue) :=
  List.filter (λ kv, negb (is_undefined kv.2)) d.

Definition JSON_entry (h : HistoryEntry) : HistoryEntry :=
  mkHistoryEntry (h_timestamp h) (h_action h) (h_agent h) (h_taskId h)
    (JSON_details <$> h_details h).

Definition JSON_roundtrip (state : ProjectState) : ProjectState :=
  set_history (JSON_entry <$> history state) state.

Definition priorityOrder (p : TaskPriority) : Z :=
  match p with Critical => 0 | High => 1 | Medium => 2 | Low => 3 end.

Definition byPriority (a b : Task) : Z :=
  priorityOrder (t_priority a) - priorityOrder (t_priority b).

(** [tasks.find((t) => t.id === taskId)], with the index of the element
    found: the object returned is the array element itself. *)
Definition findTask (all : list Task) (taskId : string) : option (nat * Task) :=
  list_find (λ t, t_id t = taskId) all.

Section StateManager.

(** [Math.round((completed / total) * 100)], the one floating-point
    computation of the module.  Its value is left open: no property below
    depends on it. *)
Variable Math_round_percent : Z → Z → Z.

Definition addHistory (now : Timestamp) (state : ProjectState) (action : string)
    (agent : option AgentType) (taskId : option string)
    (details : option (list (string * JValue))) : ProjectState :=
  let entry := mkHistoryEntry now action agent taskId details in
  set_history (history state ++ [entry]) state.

(** [initialize]: [uuid] is the value of [uuidv4()], [projectSlug] the
    value of [slug || this.slugify(name)], [tSave] the clock read of the
    final [save]. *)
Definition initialize (uuid : string) (now tSave : Timestamp)
    (name description projectSlug : string) (disk : Disk) : ProjectState * Disk :=
  let pending := mkPhaseStatus PhasePending None None in
  let state :=
    mkProjectState
      (mkProject uuid name projectSlug description now now "0.1.0")
      Ideation
      (<[Ideation := mkPhaseStatus PhaseInProgress (Some now) None]>
       (<[Specification := pending]> (<[Architecture := pending]>
       (<[Planning := pending]> (<[Implementation := pending]>
       (<[Testing := pending]> (<[Deployment := pending]>
       (<[Complete := pending]> ∅))))))))
      None [] [] (mkProgress 0 0 0 0 0 0) [] [] []
      [mkHistoryEntry now "project_initialized" None None
         (Some [("name", JStr name); ("description", JStr description)])]
      None
      (Some (mkConfig AutonomyHigh 5 true 3 3)) in
  let state := set_project (set_updated tSave (project state)) state in
  (state, mkDisk (Some (JSON_roundtrip state)) (checkpointFiles disk)).

Definition load (disk : Disk) : Error + ProjectState :=
  match stateFile disk with
  | None => inl StateNotFound
  | Some state => inr state
  end.

(** [save] stamps [project.updated], validates and overwrites the state
    file; the stamp is a write to the caller's state object. *)
Definition save (now : Timestamp) (disk : Disk) (state : ProjectState)
    : ProjectState * Disk :=
  let state := set_project (set_updated now (project state)) state in
  (state, mkDisk (Some (JSON_roundtrip state)) (checkpointFiles disk)).

(** *** Phase management *)

Definition transitionPhase (now tHistory : Timestamp) (state : ProjectState)
    (newPhase : Phase) : ProjectState :=
  let currentPhase := phase state in
  let state :=
    match phases state !! currentPhase with
    | Some ps =>
        set_phases
          (<[currentPhase :=
               set_ps_completedAt (Some now) (set_ps_status PhaseComplete ps)]>
             (phases state)) state
    | None => state
    end in
  let state := set_phase newPhase state in
  let state :=
    match phases state !! newPhase with
    | Some ps =>
        set_phases
          (<[newPhase :=
               set_ps_startedAt (Some now) (set_ps_status PhaseInProgress ps)]>
             (phases state)) state
    | None => state
    end in
  addHistory tHistory state "phase_transition" None None
    (Some [("from", JStr (Phase_name currentPhase));
           ("to", JStr (Phase_name newPhase))]).

(** *** Task selection *)

Fixpoint dependenciesCompleted (all : list Task) (deps : list string) : bool :=
  match deps with
  | [] => true
  | depId :: rest =>
      match findTask all depId with
      | None => false
      | Some (_, dep) =>
          if negb (bool_decide (t_status dep = Completed)) then false
          else dependenciesCompleted all rest
      end
  end.

Definition areDependenciesMet (state : ProjectState) (task : Task) : bool :=
  dependenciesCompleted (tasks state) (t_dependencies task).

(** The filter of both selection functions:
    [t.status === 'pending' && this.areDependenciesMet(state, t)]. *)
Definition isReady (state : ProjectState) (t : Task) : bool :=
  bool_decide (t_status t = Pending) && areDependenciesMet state t.

Definition getNextTask (state : ProjectState) : option Task :=
  let pendingTasks := List.filter (isReady state) (tasks state) in
  if Z.of_nat (length pendingTasks) =? 0 then None
  else head (Array_sort byPriority pendingTasks).

Definition hasFileConflict (selectedTasks : list Task) (newTask : Task) : bool :=
  existsb
    (λ task, existsb (λ output, bool_decide (output ∈ t_outputs newTask))
                     (t_outputs task))
    selectedTasks.

(** The first loop of [getParallelizableTasks]: the Map from agent to the
    array of its tasks. *)
Definition groupByAgent (pendingTasks : list Task) : list (AgentType * list Task) :=
  foldl
    (λ byAgent task,
       let tasks := default [] (Map_get (t_agent task) byAgent) in
       let tasks := tasks ++ [task] in
       Map_set (t_agent task) tasks byAgent)
    [] pendingTasks.

(** The second loop, over the groups in Map order, with the tasks selected
    so far; the first branch is the [break]. *)
Fixpoint selectPerAgent (maxTasks : Z) (groups : list (AgentType * list Task))
    (selected : list Task) : list Task :=
  match groups with
  | [] => selected
  | (_, tasks) :: rest =>
      if Z.of_nat (length selected) >=? maxTasks then selected
      else
        let tasks := Array_sort byPriority tasks in
        match List.find (λ t, negb (hasFileConflict selected t)) tasks with
        | Some task => selectPerAgent maxTasks rest (selected ++ [task])
        | None => selectPerAgent maxTasks rest selected
        end
  end.

Definition getParallelizableTasks (state : ProjectState) (maxTasks : Z) : list Task :=
  let pendingTasks := List.filter (isReady state) (tasks state) in
  let byAgent := groupByAgent pendingTasks in
  selectPerAgent maxTasks byAgent [].

(** *** Progress *)

Definition countStatus (st : TaskStatus) (all : list Task) : Z :=
  Z.of_nat (length (List.filter (λ t, bool_decide (t_status t = st)) all)).

Definition updateProgress (state : ProjectState) : ProjectState :=
  let tasks := tasks state in
  let total := Z.of_nat (length tasks) in
  let completed := countStatus Completed tasks in
  let inProgress := countStatus InProgress tasks in
  let blocked := countStatus Blocked tasks in
  let skipped := countStatus Skipped tasks in
  set_progress
    (mkProgress total completed inProgress blocked skipped
       (if total >? 0 then Math_round_percent completed total
        else 0))
    state.

(** *** Task lifecycle *)

Definition startTask (now tHistory : Timestamp) (state : ProjectState)
    (taskId : string) : option Task * ProjectState :=
  match findTask (tasks state) taskId with
  | None => (None, state)
  | Some (i, task) =>
      let task := set_t_status InProgress task in
      let task := set_t_startedAt (Some now) task in
      let task := set_t_attempts (t_attempts task + 1) task in
      let state := set_tasks (<[i := task]> (tasks state)) state in
      let state :=
        set_currentTasks
          (currentTasks state
             ++ [mkCurrentTask taskId (t_agent task) now (t_attempts task)])
          state in
      let state := updateProgress state in
      let state :=
        addHistory tHistory state "task_started" (Some (t_agent task))
          (Some taskId) (Some [("attempt", JNum (t_attempts task))]) in
      (Some task, state)
  end.

(** [Math.round((end - start) / 60000)] on integer milliseconds: the
    nearest integer, a half rounding up. *)
Definition roundMinutes (start finish : Timestamp) : Z :=
  (finish - start + 30000) / 60000.

Definition JNum_opt (x : option Z) : JValue :=
  match x with Some n => JNum n | None => JUndefined end.

Definition completeTask (now tHistory : Timestamp) (state : ProjectState)
    (taskId : string) : option Task * ProjectState :=
  match findTask (tasks state) taskId with
  | None => (None, state)
  | Some (i, task) =>
      let task := set_t_status Completed task in
      let task := set_t_completedAt (Some now) task in
      let task := set_t_error None task in
      let task :=
        match t_startedAt task with
        | Some start => set_t_actualMinutes (Some (roundMinutes start now)) task
        | None => task
        end in
      let state := set_tasks (<[i := task]> (tasks state)) state in
      let state :=
        set_currentTasks
          (List.filter (λ ct, negb (bool_decide (ct_id ct = taskId)))
             (currentTasks state))
          state in
      let state := updateProgress state in
      let state :=
        addHistory tHistory state "task_completed" (Some (t_agent task))
          (Some taskId)
          (Some [("actualMinutes", JNum_opt (t_actualMinutes task))]) in
      (Some task, state)
  end.

Definition failTask (tBlocker tHistory : Timestamp) (state : ProjectState)
    (taskId : string) (error : string) : option Task * ProjectState :=
  match findTask (tasks state) taskId with
  | None => (None, state)
  | Some (i, task) =>
      let task := set_t_error (Some error) task in
      let '(task, state) :=
        if t_attempts task >=? t_maxAttempts task then
          let task := set_t_status Blocked task in
          (task,
           set_blockers
             (blockers state
                ++ [mkBlocker taskId error tBlocker (t_attempts task)])
             state)
        else
          (set_t_status Pending task, state) in
      let state := set_tasks (<[i := task]> (tasks state)) state in
      let state :=
        set_currentTasks
          (List.filter (λ ct, negb (bool_decide (ct_id ct = taskId)))
             (currentTasks state))
          state in
      let state := updateProgress state in
      let state :=
        addHistory tHistory state "task_failed" (Some (t_agent task))
          (Some taskId)
          (Some [("error", JStr error);
                 ("attempt", JNum (t_attempts task));
                 ("willRetry", JBool (bool_decide (t_status task = Pending)))]) in
      (Some task, state)
  end.

Definition addTasks (state : ProjectState) (newTasks : list Task) : ProjectState :=
  let state := set_tasks (tasks state ++ newTasks) state in
  updateProgress state.

(** *** Checkpoints *)

Definition checkpointFile (checkpointId : string) : string :=
  String.append checkpointId ".json".

Definition createCheckpoint (tCheckpoint tHistory : Timestamp) (disk : Disk)
    (state : ProjectState) (gitCommit description : option string)
    : Checkpoint * ProjectState * Disk :=
  let checkpoint :=
    mkCheckpoint
      (String.append "CP-"
         (padStart0 3 (String_of_nat (length (checkpoints state) + 1))))
      tCheckpoint (phase state) (pr_completed (progress state))
      gitCommit description in
  let state := set_checkpoints (checkpoints state ++ [checkpoint]) state in
  let disk :=
    mkDisk (stateFile disk)
      (<[checkpointFile (cp_id checkpoint) := JSON_roundtrip state]>
         (checkpointFiles disk)) in
  let state :=
    addHistory tHistory state "checkpoint_created" None None
      (Some [("checkpointId", JStr (cp_id checkpoint));
             ("tasksCompleted", JNum (cp_tasksCompleted checkpoint))]) in
  (checkpoint, state, disk).

Definition restoreCheckpoint (tHistory tSave : Timestamp) (disk : Disk)
    (checkpointId : string) : Error + (ProjectState * Disk) :=
  match checkpointFiles disk !! checkpointFile checkpointId with
  | None => inl (CheckpointNotFound checkpointId)
  | Some state =>
      let state :=
        addHistory tHistory state "checkpoint_restored" None None
          (Some [("checkpointId", JStr checkpointId)]) in
      inr (save tSave disk state)
  end.

(** *** Utilities *)

Definition isComplete (state : ProjectState) : bool :=
  (Z.of_nat (length (tasks state)) >? 0)
  && forallb
       (λ t, bool_decide (t_status t = Completed)
             || bool_decide (t_status t = Skipped))
       (tasks state).

Definition shouldCheckpoint (state : ProjectState) : bool :=
  let freq := number_or (cfg_checkpointFrequency <$> config state) 5 in
  let lastCheckpoint := last (checkpoints state) in
  let tasksSinceCheckpoint :=
    match lastCheckpoint with
    | Some cp => pr_completed (progress state) - cp_tasksCompleted cp
    | None => pr_completed (progress state)
    end in
  tasksSinceCheckpoint >=? freq.

End StateManager.

(** * Further operations of the state manager *)

Definition set_decisions (v : list Decision) (s : ProjectState) : ProjectState :=
  mkProjectState (project s) (phase s) (phases s) (techStack s) (tasks s)
    (currentTasks s) (progress s) (blockers s) v (checkpoints s)
    (history s) (metrics s) (config s).

(** [exists()]: whether the project state file is present. *)
Definition stateExists (disk : Disk) : bool :=
  match stateFile disk with
  | Some _ => true
  | None => false
  end.

(** [addDecision]: the two timestamps are the clock read of [decidedAt]
    and the one of [addHistory]. *)
Definition addDecision (tDecided tHistory : Timestamp) (state : ProjectState)
    (topic decision rationale : string) (decidedBy : AgentType)
    (alternatives : option (list string)) : Decision * ProjectState :=
  let record :=
    mkDecision
      (String.append "DEC-"
         (padStart0 3 (String_of_nat (length (decisions state) + 1))))
      topic decision rationale alternatives tDecided decidedBy in
  let state := set_decisions (decisions state ++ [record]) state in
  let state :=
    addHistory tHistory state "decision_made" (Some decidedBy) None
      (Some [("topic", JStr topic); ("decision", JStr decision)]) in
  (record, state).

(** *** [slugify]

    The function is embedded for text made of ASCII characters, where a
    character of the JavaScript string is a character of the Rocq string.
    On ASCII, [toLowerCase] maps [A-Z] to [a-z], [\w] is [[A-Za-z0-9_]] and
    [\s] is tab, line feed, vertical tab, form feed, carriage return and
    space. *)

Definition isAscii (c : ascii) : bool := (nat_of_ascii c <? 128)%nat.

Definition isUpper (c : ascii) : bool :=
  ((65 <=? nat_of_ascii c) && (nat_of_ascii c <=? 90))%nat.

Definition isLower (c : ascii) : bool :=
  ((97 <=? nat_of_ascii c) && (nat_of_ascii c <=? 122))%nat.

Definition isDigit (c : ascii) : bool :=
  ((48 <=? nat_of_ascii c) && (nat_of_ascii c <=? 57))%nat.

Definition isHyphen (c : ascii) : bool := (nat_of_ascii c =? 45)%nat.

Definition isUnderscore (c : ascii) : bool := (nat_of_ascii c =? 95)%nat.

(** [\s] *)
Definition isSpace (c : ascii) : bool :=
  ((9 <=? nat_of_ascii c) && (nat_of_ascii c <=? 13)
   || (nat_of_ascii c =? 32))%nat.

(** [\w] *)
Definition isWord (c : ascii) : bool :=
  isUpper c || isLower c || isDigit c || isUnderscore c.

Definition toLowerChar (c : ascii) : ascii :=
  if isUpper c then ascii_of_nat (nat_of_ascii c + 32) else c.

(** [.toLowerCase()] *)
Definition toLowerCase (l : list ascii) : list ascii := toLowerChar <$> l.

(** [.replace(/[^\w\s-]/g, '')] *)
Definition removeOthers (l : list ascii) : list ascii :=
  List.filter (λ c, isWord c || isSpace c || isHyphen c) l.

(** [[\s_-]] *)
Definition isSeparator (c : ascii) : bool :=
  isSpace c || isUnderscore c || isHyphen c.

(** [.replace(/[\s_-]+/g, '-')]: every maximal run of separators becomes
    one hyphen; [inRun] tells that the previous character was a separator. *)
Fixpoint collapseRuns (inRun : bool) (l : list ascii) : list ascii :=
  match l with
  | [] => []
  | c :: r =>
      if isSeparator c then
        if inRun then collapseRuns true r else "-"%char :: collapseRuns true r
      else c :: collapseRuns false r
  end.

Fixpoint dropLeadingHyphens (l : list ascii) : list ascii :=
  match l with
  | [] => []
  | c :: r => if isHyphen c then dropLeadingHyphens r else c :: r
  end.

Fixpoint dropTrailingHyphens (l : list ascii) : list ascii :=
  match l with
  | [] => []
  | c :: r =>
      match dropTrailingHyphens r with
      | [] => if isHyphen c then [] else [c]
      | r' => c :: r'
      end
  end.

(** [.replace(/^-+|-+$/g, '')]: the run of hyphens at the start and the
    run of hyphens at the end are removed. *)
Definition trimHyphens (l : list ascii) : list ascii :=
  dropTrailingHyphens (dropLeadingHyphens l).

Definition slugifyChars (l : list ascii) : list ascii :=
  trimHyphens (collapseRuns false (removeOthers (toLowerCase l))).

Definition slugify (text : string) : string :=
  string_of_list_ascii (slugifyChars (list_ascii_of_string text)).

(** [slug || this.slugify(name)] of [initialize]: an absent or empty slug
    is replaced by the slug of the name. *)
Definition projectSlugOf (slug : option string) (name : string) : string :=
  match slug with
  | Some s => if bool_decide (s = "") then slugify name else s
  | None => slugify name
  end.

(** * Vocabulary of the properties *)

(** ** Sample states *)

(** The state [initialize] returns for a project named demo. *)
Definition freshProject : ProjectState :=
  (initialize "0b5e3c0a-7c1d-4a55-9c1e-2f6a1d3b4c5d" 1000 1001
     "demo" "a demo project" "demo" (mkDisk None ∅)).1.

(** An instance of the percentage parameter for closed examples: the exact
    quotient rounded to the nearest integer. *)
Definition percentExact (completed total : Z) : Z :=
  (200 * completed + total) / (2 * total).

(** A pending task as the planner writes it: no attempt yet, at most 3. *)
Definition sampleTask (taskId : string) (agent : AgentType)
    (priority : TaskPriority) (deps outs : list string) : Task :=
  mkTask taskId "sample" "" Pending priority agent None None deps outs []
    None None 0 3 None None None.

(** A fresh project with two planned tasks. *)
Definition plannedProject : ProjectState :=
  addTasks percentExact freshProject
    [sampleTask "T-1" BackendDev High [] ["src/api.ts"];
     sampleTask "T-2" FrontendDev Critical ["T-1"] ["src/app.ts"]].

(** Task A (high, no dependency) and task B (critical, depends on A), both
    pending. *)
Definition scenarioAB : ProjectState :=
  addTasks percentExact freshProject
    [sampleTask "A" BackendDev High [] ["src/a.ts"];
     sampleTask "B" FrontendDev Critical ["A"] ["src/b.ts"]].

(** The fresh project with its checkpoint frequency configured as 0. *)
Definition zeroFrequencyState : ProjectState :=
  mkProjectState (project freshProject) (phase freshProject)
    (phases freshProject) None [] [] (progress freshProject) [] [] []
    (history freshProject) None (Some (mkConfig AutonomyHigh 0 true 3 3)).

(** ** Checkpoint threshold *)

(** The completed count recorded by the most recent checkpoint, zero when
    there is none. *)
Definition completedAtLastCheckpoint (state : ProjectState) : Z :=
  match last (checkpoints state) with
  | Some cp => cp_tasksCompleted cp
  | None => 0
  end.

(** The frequency as the specification words it: the configured value, and
    5 when no configuration is present. *)
Definition configuredFrequency (state : ProjectState) : Z :=
  match config state with
  | Some c => cfg_checkpointFrequency c
  | None => 5
  end.

(** The threshold test as the specification states it. *)
Definition shouldCheckpoint_as_stated (state : ProjectState) : Prop :=
  shouldCheckpoint state = true ↔
    pr_completed (progress state) - completedAtLastCheckpoint state
    >= configuredFrequency state.

(** ** Phase entries *)

(** The entry of phase [p] is complete and carries the completion stamp. *)
Definition markedComplete (now : Timestamp) (m : gmap Phase PhaseStatus)
    (p : Phase) : Prop :=
  ∃ ps, m !! p = Some ps
        ∧ ps_status ps = PhaseComplete ∧ ps_completedAt ps = Some now.

(** The entry of phase [p] is in progress and carries the start stamp. *)
Definition markedInProgress (now : Timestamp) (m : gmap Phase PhaseStatus)
    (p : Phase) : Prop :=
  ∃ ps, m !! p = Some ps
        ∧ ps_status ps = PhaseInProgress ∧ ps_startedAt ps = Some now.

(** The history entry of a transition from [old] to [new]. *)
Definition transitionEntry (t : Timestamp) (old new : Phase) : HistoryEntry :=
  mkHistoryEntry t "phase_transition" None None
    (Some [("from", JStr (Phase_name old)); ("to", JStr (Phase_name new))]).

(** The outcome of a transition as the specification states it. *)
Definition transitionPhase_as_stated (now tH : Timestamp)
    (state : ProjectState) (target : Phase) : Prop :=
  let state' := transitionPhase now tH state target in
  markedComplete now (phases state') (phase state)
  ∧ phase state' = target
  ∧ markedInProgress now (phases state') target
  ∧ history state' = history state ++ [transitionEntry tH (phase state) target].

(** ** Task lifecycle *)

(** The history entry of a failure of [task]. *)
Definition failedEntry (t : Timestamp) (task : Task) (error : string)
    (willRetry : bool) : HistoryEntry :=
  mkHistoryEntry t "task_failed" (Some (t_agent task)) (Some (t_id task))
    (Some [("error", JStr error);
           ("attempt", JNum (t_attempts task));
           ("willRetry", JBool willRetry)]).

(** The history entry of a start of [task]. *)
Definition startedEntry (t : Timestamp) (task : Task) : HistoryEntry :=
  mkHistoryEntry t "task_started" (Some (t_agent task)) (Some (t_id task))
    (Some [("attempt", JNum (t_attempts task))]).

(** One start of the task followed by one failure.  The four timestamps
    are the clock reads of the two operations. *)
Definition failedAttempt (percent : Z → Z → Z)
    (clock : Timestamp * Timestamp * Timestamp * Timestamp)
    (error : string) (state : ProjectState) (taskId : string) : ProjectState :=
  let '(now, tH1, tB, tH2) := clock in
  (failTask percent tB tH2 (startTask percent now tH1 state taskId).2
     taskId error).2.

(** The blockers recorded for a task id. *)
Definition blockersOf (taskId : string) (state : ProjectState) : list Blocker :=
  List.filter (λ b, bool_decide (b_taskId b = taskId)) (blockers state).

(** ** Progress *)

(** The progress record agrees with the task collection: the total is the
    number of tasks and each counter is the number of tasks in its status. *)
Definition progressConsistent (state : ProjectState) : Prop :=
  let p := progress state in
  pr_total p = Z.of_nat (length (tasks state))
  ∧ pr_completed p = countStatus Completed (tasks state)
  ∧ pr_inProgress p = countStatus InProgress (tasks state)
  ∧ pr_blocked p = countStatus Blocked (tasks state)
  ∧ pr_skipped p = countStatus Skipped (tasks state)
  ∧ pr_completed p + pr_inProgress p + pr_blocked p + pr_skipped p
    ≤ pr_total p
  ∧ pr_total p
      - (pr_completed p + pr_inProgress p + pr_blocked p + pr_skipped p)
    = countStatus Pending (tasks state).

(** The operations that change the task collection. *)
Inductive LifecycleOp :=
  | OpStart (now tH : Timestamp) (taskId : string)
  | OpComplete (now tH : Timestamp) (taskId : string)
  | OpFail (tB tH : Timestamp) (taskId error : string)
  | OpAddTasks (newTasks : list Task).

(** The state after one operation (its returned task is dropped). *)
Definition applyOp (percent : Z → Z → Z) (state : ProjectState)
    (op : LifecycleOp) : ProjectState :=
  match op with
  | OpStart now tH taskId => (startTask percent now tH state taskId).2
  | OpComplete now tH taskId => (completeTask percent now tH state taskId).2
  | OpFail tB tH taskId error => (failTask percent tB tH state taskId error).2
  | OpAddTasks newTasks => addTasks percent state newTasks
  end.

(** The state after a sequence of operations, first to last. *)
Definition runOps (percent : Z → Z → Z) (ops : list LifecycleOp)
    (state : ProjectState) : ProjectState :=
  foldl (applyOp percent) state ops.

(** ** Checkpoint history entries *)

Definition createdEntry (t : Timestamp) (cp : Checkpoint) : HistoryEntry :=
  mkHistoryEntry t "checkpoint_created" None None
    (Some [("checkpointId", JStr (cp_id cp));
           ("tasksCompleted", JNum (cp_tasksCompleted cp))]).

Definition restoredEntry (t : Timestamp) (checkpointId : string) : HistoryEntry :=
  mkHistoryEntry t "checkpoint_restored" None None
    (Some [("checkpointId", JStr checkpointId)]).

(** ** Task selection *)




(** A task is eligible when it is pending and every dependency id resolves,
    by the lookup the code performs, to a task whose status is completed. *)
Definition eligible (state : ProjectState) (t : Task) : Prop :=
  t_status t = Pending
  ∧ ∀ depId, depId ∈ t_dependencies t →
      ∃ i dep, findTask (tasks state) depId = Some (i, dep)
               ∧ t_status dep = Completed.

(** The tasks of agent [a], in their order in [l]. *)
Definition agentTasks (a : AgentType) (l : list Task) : list Task :=
  List.filter (λ u, bool_decide (t_agent u = a)) l.


(** The test of the selection loop: [!hasFileConflict(selected, u)]. *)
Definition freeOf (selected : list Task) (u : Task) : bool :=
  negb (hasFileConflict selected u).

(** What the loop over the groups adds to the tasks already selected: it
    may stop, pass a group, or take from the head group the first task of
    the sorted group that conflicts with nothing selected so far. *)
Inductive Picked : list (AgentType * list Task) → list Task → list Task → Prop :=
  | Picked_stop groups selected :
      Picked groups selected []
  | Picked_pass a ts groups selected added :
      Picked groups selected added →
      Picked ((a, ts) :: groups) selected added
  | Picked_take a ts groups selected t added :
      List.find (freeOf selected) (Array_sort byPriority ts) = Some t →
      Picked groups (selected ++ [t]) added →
      Picked ((a, ts) :: groups) selected (t :: added).

(** The tasks of a group carry the group's agent and groups have distinct
    agents. *)
Definition groupsWellFormed (groups : list (AgentType * list Task)) : Prop :=
  NoDup groups.*1
  ∧ Forall (λ g, Forall (λ t, t_agent t = g.1) g.2) groups.

(** ** Further vocabulary *)

(** The history entry of a completion of [task]. *)
Definition completedEntry (t : Timestamp) (task : Task) : HistoryEntry :=
  mkHistoryEntry t "task_completed" (Some (t_agent task)) (Some (t_id task))
    (Some [("actualMinutes", JNum_opt (t_actualMinutes task))]).

(** The current-task pointers recorded for a task id. *)
Definition pointersOf (taskId : string) (state : ProjectState) : list CurrentTask :=
  List.filter (λ ct, bool_decide (ct_id ct = taskId)) (currentTasks state).

(** [t'] has the definition of [t]: the fields that planning sets and no
    lifecycle operation writes. *)
Definition sameDefinition (t t' : Task) : Prop :=
  t_id t' = t_id t
  ∧ t_title t' = t_title t
  ∧ t_description t' = t_description t
  ∧ t_priority t' = t_priority t
  ∧ t_agent t' = t_agent t
  ∧ t_epic t' = t_epic t
  ∧ t_story t' = t_story t
  ∧ t_dependencies t' = t_dependencies t
  ∧ t_outputs t' = t_outputs t
  ∧ t_acceptanceCriteria t' = t_acceptanceCriteria t
  ∧ t_estimatedMinutes t' = t_estimatedMinutes t
  ∧ t_maxAttempts t' = t_maxAttempts t.

(** ** Phases, identifiers and lookups *)

(** The task id a lifecycle operation looks up, none for [addTasks]. *)
Definition opTarget (op : LifecycleOp) : option string :=
  match op with
  | OpStart _ _ taskId | OpComplete _ _ taskId | OpFail _ _ taskId _ =>
      Some taskId
  | OpAddTasks _ => None
  end.

(** Every phase has an entry in the [phases] record. *)
Definition phasesTotal (state : ProjectState) : Prop :=
  ∀ p, is_Some (phases state !! p).

(** A sequence of transitions, each with its two clock reads and its
    target. *)
Definition walkPhases (steps : list (Timestamp * Timestamp * Phase))
    (state : ProjectState) : ProjectState :=
  foldl (λ s step, transitionPhase step.1.1 step.1.2 s step.2) state steps.

(** The entry of a phase after a transition from [current] to [target]. *)
Definition entryAfter (now : Timestamp) (current target p : Phase)
    (ps : PhaseStatus) : PhaseStatus :=
  if decide (p = target) then
    mkPhaseStatus PhaseInProgress (Some now)
      (if decide (p = current) then Some now else ps_completedAt ps)
  else if decide (p = current) then
    mkPhaseStatus PhaseComplete (ps_startedAt ps) (Some now)
  else ps.

(** The id of the [n]-th checkpoint and of the [n]-th decision. *)
Definition checkpointIdOf (n : nat) : string :=
  String.append "CP-" (padStart0 3 (String_of_nat n)).

Definition decisionIdOf (n : nat) : string :=
  String.append "DEC-" (padStart0 3 (String_of_nat n)).

(** The number a string of decimal digits denotes. *)
Definition decimalValue (s : string) : option nat :=
  Nat.of_uint <$> NilEmpty.uint_of_string s.


(** The history entry of a decision. *)
Definition decisionEntry (t : Timestamp) (record : Decision) : HistoryEntry :=
  mkHistoryEntry t "decision_made" (Some (d_decidedBy record)) None
    (Some [("topic", JStr (d_topic record));
           ("decision", JStr (d_decision record))]).

(** ** The manager as a driver uses it *)

(** A call of the manager by a driver that holds the state the manager
    returned last and saves, loads and restores through it. *)
Inductive Mutation :=
  | MLifecycle (op : LifecycleOp)
  | MTransition (now tH : Timestamp) (target : Phase)
  | MDecision (tD tH : Timestamp) (topic decision rationale : string)
      (decidedBy : AgentType) (alternatives : option (list string))
  | MCheckpoint (tC tH : Timestamp) (gitCommit description : option string)
  | MRestore (tH tS : Timestamp) (checkpointId : string)
  | MSave (now : Timestamp)
  | MLoad.

(** The state in memory and the documents on disk after one call.  A
    failed restore or load raises an error and leaves both as they were. *)
Definition applyMutation (percent : Z → Z → Z) (w : ProjectState * Disk)
    (m : Mutation) : ProjectState * Disk :=
  match m with
  | MLifecycle op => (applyOp percent w.1 op, w.2)
  | MTransition now tH target => (transitionPhase now tH w.1 target, w.2)
  | MDecision tD tH topic decision rationale decidedBy alternatives =>
      ((addDecision tD tH w.1 topic decision rationale decidedBy
          alternatives).2, w.2)
  | MCheckpoint tC tH gitCommit description =>
      let created := createCheckpoint tC tH w.2 w.1 gitCommit description in
      (created.1.2, created.2)
  | MRestore tH tS checkpointId =>
      match restoreCheckpoint tH tS w.2 checkpointId with
      | inr restored => restored
      | inl _ => w
      end
  | MSave now => save now w.2 w.1
  | MLoad =>
      match load w.2 with
      | inr state => (state, w.2)
      | inl _ => w
      end
  end.

Definition runMutations (percent : Z → Z → Z) (ms : list Mutation)
    (w : ProjectState * Disk) : ProjectState * Disk :=
  foldl (applyMutation percent) w ms.

(** A project initialised in a directory without checkpoint snapshots. *)
Definition freshWorld (uuid : string) (now tSave : Timestamp)
    (name description slug : string) : ProjectState * Disk :=
  initialize uuid now tSave name description slug (mkDisk None ∅).

(** [P] holds of the state in memory and of every document on disk. *)
Definition worldHolds (P : ProjectState → Prop) (w : ProjectState * Disk) : Prop :=
  P w.1
  ∧ (∀ doc, stateFile w.2 = Some doc → P doc)
  ∧ (∀ file doc, checkpointFiles w.2 !! file = Some doc → P doc).

(** A property of states that every operation of the manager keeps. *)
Record StateInvariant (percent : Z → Z → Z) (P : ProjectState → Prop) : Prop := {
  inv_op : ∀ s op, P s → P (applyOp percent s op);
  inv_transition : ∀ now tH s target, P s → P (transitionPhase now tH s target);
  inv_decision :
    ∀ tD tH s topic decision rationale decidedBy alternatives,
      P s →
      P (addDecision tD tH s topic decision rationale decidedBy alternatives).2;
  inv_checkpoint :
    ∀ tC s g d,
      P s →
      P (set_checkpoints
           (checkpoints s
              ++ [mkCheckpoint (checkpointIdOf (length (checkpoints s) + 1))
                    tC (phase s) (pr_completed (progress s)) g d]) s);
  inv_history :
    ∀ now s action agent taskId details,
      P s → P (addHistory now s action agent taskId details);
  inv_json : ∀ s, P s → P (JSON_roundtrip s);
  inv_updated : ∀ now s, P s → P (set_project (set_updated now (project s)) s)
}.

(** Every pointer to a task in flight and every blocker names a task of
    the collection. *)
Definition referencesResolve (state : ProjectState) : Prop :=
  Forall (λ ct, is_Some (findTask (tasks state) (ct_id ct)))
    (currentTasks state)
  ∧ Forall (λ b, is_Some (findTask (tasks state) (b_taskId b)))
      (blockers state).

(** Decisions and checkpoints are numbered 1, 2, 3, ... in list order. *)
Definition sequentialIds (state : ProjectState) : Prop :=
  d_id <$> decisions state
  = decisionIdOf <$> seq 1 (length (decisions state))
  ∧ cp_id <$> checkpoints state
    = checkpointIdOf <$> seq 1 (length (checkpoints state)).

(** Every checkpoint that [state] lists has a snapshot on [disk]. *)
Definition checkpointsStored (disk : Disk) (state : ProjectState) : Prop :=
  Forall
    (λ cp, is_Some (checkpointFiles disk !! checkpointFile (cp_id cp)))
    (checkpoints state).

(** The calls that move the state forward: all but restore and load,
    which replace the state in memory by a document. *)
Definition isForward (m : Mutation) : Prop :=
  match m with
  | MRestore _ _ _ | MLoad => False
  | _ => True
  end.


(** A prefix of a list: the rest was appended. *)
Definition extends {A} (old new : list A) : Prop := ∃ rest, new = old ++ rest.

(** What a forward call keeps of the state it is given: the tasks, each
    at its index with its definition and with no fewer attempts, new tasks
    only at the end, and everything recorded so far. *)
Definition keepsRecords (old new : ProjectState) : Prop :=
  extends (t_id <$> tasks old) (t_id <$> tasks new)
  ∧ (∀ i t, tasks old !! i = Some t →
            ∃ t', tasks new !! i = Some t'
                  ∧ sameDefinition t t'
                  ∧ t_attempts t ≤ t_attempts t')
  ∧ extends (history old) (history new)
  ∧ extends (blockers old) (blockers new)
  ∧ extends (decisions old) (decisions new)
  ∧ extends (checkpoints old) (checkpoints new).

(** The phase entries agree with the current phase: every phase has an
    entry, the phase in progress is the current one and no other, a phase
    in progress has a start time and a complete phase a completion time. *)
Definition phasesCoherent (state : ProjectState) : Prop :=
  ∀ p, ∃ ps,
    phases state !! p = Some ps
    ∧ (ps_status ps = PhaseInProgress ↔ p = phase state)
    ∧ (ps_status ps = PhaseInProgress → is_Some (ps_startedAt ps))
    ∧ (ps_status ps = PhaseComplete → is_Some (ps_completedAt ps)).

(** Every snapshot on disk is stored under the name of the last
    checkpoint it lists. *)
Definition snapshotsNamed (disk : Disk) : Prop :=
  ∀ file doc,
    checkpointFiles disk !! file = Some doc →
    ∃ cp, last (checkpoints doc) = Some cp
          ∧ file = checkpointFile (cp_id cp).

(** The checkpoints that the state in memory and the documents on disk
    list have their snapshots, and the snapshots have their names. *)
Definition snapshotsKept (w : ProjectState * Disk) : Prop :=
  worldHolds (checkpointsStored w.2) w ∧ snapshotsNamed w.2.

(** ** Slugs *)

(** Text the embedding of [slugify] covers. *)
Definition isAsciiText (text : string) : Prop :=
  Forall (λ c, isAscii c = true) (list_ascii_of_string text).

(** A lower-case letter or a digit. *)
Definition isAlnum (c : ascii) : bool := isLower c || isDigit c.

(** No two hyphens in a row. *)
Fixpoint noDoubleHyphen (l : list ascii) : bool :=
  match l with
  | [] => true
  | a :: r =>
      match r with
      | [] => true
      | b :: _ => negb (isHyphen a && isHyphen b) && noDoubleHyphen r
      end
  end.

(** The shape of a slug: lower-case letters, digits and hyphens, no
    hyphen at either end and no two hyphens in a row. *)
Definition isSlugChars (l : list ascii) : Prop :=
  Forall (λ c, isAlnum c || isHyphen c = true) l
  ∧ (∀ c, head l = Some c → isHyphen c = false)
  ∧ (∀ c, last l = Some c → isHyphen c = false)
  ∧ noDoubleHyphen l = true.

Definition isSlug (s : string) : Prop := isSlugChars (list_ascii_of_string s).

(** The letters and digits of a text, in order. *)
Definition alnumOf (l : list ascii) : list ascii := List.filter isAlnum l.

(** ** A sample session *)

(** The world after [initialize] for the demo project. *)
Definition demoWorld : ProjectState * Disk :=
  freshWorld "0b5e3c0a-7c1d-4a55-9c1e-2f6a1d3b4c5d" 1000 1001
    "demo" "a demo project" "demo".

(** Planning of two tasks, the first task started, a checkpoint, the first
    task completed, a decision, a second checkpoint and a save. *)
Definition demoCalls : list Mutation :=
  [MLifecycle
     (OpAddTasks
        [sampleTask "T-1" BackendDev High [] ["src/api.ts"];
         sampleTask "T-2" FrontendDev Critical ["T-1"] ["src/app.ts"]]);
   MLifecycle (OpStart 3000 3001 "T-1");
   MCheckpoint 4000 4001 None None;
   MLifecycle (OpComplete 5000 5001 "T-1");
   MDecision 6000 6001 "database" "postgres" "team knows it" Architect None;
   MCheckpoint 7000 7001 None (Some "first task done");
   MSave 8000].

(** The planned project with both tasks completed. *)
Definition finishedProject : ProjectState :=
  runOps percentExact
    [OpStart 3000 3001 "T-1"; OpComplete 3100 3101 "T-1";
     OpStart 3200 3201 "T-2"; OpComplete 3300 3301 "T-2"]
    plannedProject.

(** * Properties *)

(** ** Completion test *)

(** C10.  [isComplete] answers true exactly when the task collection is not
    empty and every task is completed or skipped; a state whose task
    collection is empty is never complete, whatever its other fields. *)
Theorem isComplete_spec (state : ProjectState) :
  (isComplete state = true ↔
     tasks state ≠ []
     ∧ Forall (λ t, t_status t = Completed ∨ t_status t = Skipped) (tasks state))
  ∧ isComplete (set_tasks [] state) = false.
Proof.
  split; [|reflexivity].
  unfold isComplete. rewrite andb_true_iff, forallb_forall, Forall_forall.
  split.
  - intros [Hlen Hall]. split.
    + intros Hnil. rewrite Hnil in Hlen. discriminate.
    + intros t Ht. apply list_elem_of_In in Ht. specialize (Hall t Ht).
      apply orb_true_iff in Hall as [H|H]; apply bool_decide_eq_true in H; auto.
  - intros [Hne Hall]. split.
    + destruct (tasks state); [done|]. simpl length. apply Z.gtb_lt. lia.
    + intros t Ht. apply list_elem_of_In in Ht. apply orb_true_iff.
      destruct (Hall t Ht) as [H|H]; [left|right]; by apply bool_decide_eq_true.
Qed.

(** ** Checkpoint threshold *)

(** C8, as stated, fails: with a configured frequency of 0 the threshold
    [0 - 0 >= 0] is met, yet [shouldCheckpoint] answers false because a
    frequency of 0 is replaced by 5. *)
Lemma shouldCheckpoint_zero_frequency :
  ¬ shouldCheckpoint_as_stated zeroFrequencyState.
Proof.
  intros [_ H]. cbn in H. discriminate H. lia.
Qed.

(** C8, amended.  [shouldCheckpoint] answers true exactly when the completed
    count minus the count recorded by the most recent checkpoint (zero when
    there is none) reaches the frequency in force: the configured
    [checkpointFrequency] when a configuration is present and its frequency
    is not 0, and 5 otherwise. *)
Theorem shouldCheckpoint_spec (state : ProjectState) :
  shouldCheckpoint state = true ↔
    ∃ freq : Z,
      (match config state with
       | Some c =>
           (cfg_checkpointFrequency c ≠ 0 ∧ freq = cfg_checkpointFrequency c)
           ∨ (cfg_checkpointFrequency c = 0 ∧ freq = 5)
       | None => freq = 5
       end)
      ∧ pr_completed (progress state) - completedAtLastCheckpoint state >= freq.
Proof.
  unfold shouldCheckpoint, completedAtLastCheckpoint, number_or.
  rewrite Z.geb_le.
  destruct (config state) as [c|]; simpl.
  - destruct (Z.eqb_spec (cfg_checkpointFrequency c) 0) as [H0|H0];
      destruct (last (checkpoints state)); split.
    all: try (intros H; eexists; split; [eauto|]; lia).
    all: intros (freq & [[? ->]|[? ->]] & ?); lia.
  - destruct (last (checkpoints state)); split.
    all: try (intros H; exists 5; split; [done|]; lia).
    all: intros (freq & -> & ?); lia.
Qed.

(** ** Phase transitions *)

(** C7, as stated, fails when the target is the current phase: the entry
    is first marked complete and then marked in progress again, so after
    the call the previously current phase is not complete. *)
Lemma transitionPhase_to_current_phase :
  ¬ transitionPhase_as_stated 2000 2001 freshProject Ideation.
Proof.
  intros [(ps & Hps & Hst & _) _].
  vm_compute in Hps. injection Hps as <-. discriminate Hst.
Qed.

(** Phases without an entry in the [phases] record are skipped by
    both guards: they stay without an entry. *)
Lemma transitionPhase_absent now tH state target p :
  phases state !! p = None →
  phases (transitionPhase now tH state target) !! p = None.
Proof.
  intros Hp. unfold transitionPhase. cbn.
  destruct (phases state !! phase state) as [ps|] eqn:Hcur; cbn.
  - assert (p ≠ phase state) by congruence.
    rewrite lookup_insert.
    destruct (decide (phase state = target)) as [Heq|Hne]; cbn.
    + rewrite lookup_insert_ne by congruence. by rewrite lookup_insert_ne.
    + destruct (phases state !! target) eqn:Htgt; cbn.
      * assert (p ≠ target) by congruence.
        rewrite lookup_insert_ne by done. by rewrite lookup_insert_ne.
      * by rewrite lookup_insert_ne.
  - destruct (phases state !! target) eqn:Htgt; cbn; [|done].
    assert (p ≠ target) by congruence. by rewrite lookup_insert_ne.
Qed.

(** C7, amended.  In a state whose [phases] record has an entry for the
    current phase and for the target, and for every target (backward,
    forward or the same phase): the phase becomes the target, the target's
    entry is in progress with the start timestamp, the previously current
    phase's entry carries the completion timestamp and, when the target is
    a different phase, the status complete; every other entry is unchanged
    and exactly one [phase_transition] entry recording the old and the new
    phase is appended to the history.  When the target is the current phase
    its entry therefore ends in progress with both timestamps set. *)
Theorem transitionPhase_spec (now tH : Timestamp) (state : ProjectState)
    (target : Phase) :
  is_Some (phases state !! phase state) →
  is_Some (phases state !! target) →
  let state' := transitionPhase now tH state target in
  phase state' = target
  ∧ markedInProgress now (phases state') target
  ∧ ps_completedAt <$> phases state' !! phase state = Some (Some now)
  ∧ (target ≠ phase state → transitionPhase_as_stated now tH state target)
  ∧ (∀ p, p ≠ phase state → p ≠ target →
       phases state' !! p = phases state !! p)
  ∧ history state' = history state ++ [transitionEntry tH (phase state) target]
  ∧ tasks state' = tasks state.
Proof.
  intros [pc Hpc] [pt Hpt].
  unfold transitionPhase_as_stated, transitionPhase, markedInProgress,
    markedComplete.
  cbn. rewrite Hpc. cbn.
  destruct (decide (target = phase state)) as [->|Hne].
  - rewrite lookup_insert_eq. cbn. rewrite !lookup_insert_eq.
    repeat split; eauto.
    + congruence.
    + intros p H1 _. by rewrite !lookup_insert_ne.
  - rewrite lookup_insert_ne, Hpt by done. cbn.
    rewrite lookup_insert_eq, lookup_insert_ne, lookup_insert_eq by done.
    repeat split; eauto.
    intros p H1 H2. by rewrite !lookup_insert_ne.
Qed.

Lemma transitionPhase_spec_witness :
  let state' := transitionPhase 2000 2001 freshProject Architecture in
  phase state' = Architecture
  ∧ markedInProgress 2000 (phases state') Architecture
  ∧ ps_completedAt <$> phases state' !! phase freshProject = Some (Some 2000)
  ∧ (Architecture ≠ phase freshProject →
     transitionPhase_as_stated 2000 2001 freshProject Architecture)
  ∧ (∀ p, p ≠ phase freshProject → p ≠ Architecture →
       phases state' !! p = phases freshProject !! p)
  ∧ history state'
    = history freshProject
        ++ [transitionEntry 2001 (phase freshProject) Architecture]
  ∧ tasks state' = tasks freshProject.
Proof.
  apply (transitionPhase_spec 2000 2001 freshProject Architecture).
  - vm_compute. eauto.
  - vm_compute. eauto.
Defined.

(** ** Task lookup *)

Lemma findTask_None (all : list Task) (taskId : string) :
  findTask all taskId = None ↔ Forall (λ t, t_id t ≠ taskId) all.
Proof. unfold findTask. apply list_find_None. Qed.

Lemma findTask_Some (all : list Task) (taskId : string) (i : nat) (t : Task) :
  findTask all taskId = Some (i, t) ↔
    all !! i = Some t ∧ t_id t = taskId
    ∧ ∀ j u, all !! j = Some u → (j < i)%nat → t_id u ≠ taskId.
Proof. unfold findTask. by rewrite list_find_Some. Qed.

(** A lookup succeeds as soon as some task of the collection has the id. *)
Lemma findTask_is_Some (all : list Task) (taskId : string) :
  (∃ t, t ∈ all ∧ t_id t = taskId) ↔ is_Some (findTask all taskId).
Proof.
  split.
  - intros (t & Hin & Hid).
    destruct (findTask all taskId) as [r|] eqn:Hfind; [done|].
    apply findTask_None in Hfind. rewrite Forall_forall in Hfind.
    by destruct (Hfind t Hin).
  - intros [[i t] (Hi & Hid & _)%findTask_Some].
    exists t. split; [by eapply list_elem_of_lookup_2|done].
Qed.

(** Writing to the task that was found, without changing its id, leaves it
    the task that a later lookup of the same id finds. *)
Lemma findTask_insert (all : list Task) (taskId : string) (i : nat) (t t' : Task) :
  findTask all taskId = Some (i, t) →
  t_id t' = taskId →
  findTask (<[i := t']> all) taskId = Some (i, t').
Proof.
  rewrite !findTask_Some. intros (Hi & Hid & Hfirst) Hid'.
  assert (i < length all)%nat by (eapply lookup_lt_Some; eauto).
  split; [by apply list_lookup_insert_eq|]. split; [done|].
  intros j u Hj Hlt. rewrite list_lookup_insert_ne in Hj by lia. eauto.
Qed.

Section Lifecycle.

Variable percent : Z → Z → Z.

(** *** Lookup misses *)

(** C9.  When no task of the collection has the given id, [startTask],
    [completeTask] and [failTask] each return no task and the state they
    were given, unchanged in every field. *)
Theorem lifecycle_lookup_miss (now tH : Timestamp) (state : ProjectState)
    (taskId error : string) :
  Forall (λ t, t_id t ≠ taskId) (tasks state) →
  startTask percent now tH state taskId = (None, state)
  ∧ completeTask percent now tH state taskId = (None, state)
  ∧ failTask percent now tH state taskId error = (None, state).
Proof.
  intros Hmiss. apply findTask_None in Hmiss.
  unfold startTask, completeTask, failTask. by rewrite Hmiss.
Qed.

(** *** Failure: retry or block *)

Lemma failTask_found (tB tH : Timestamp) (state : ProjectState)
    (taskId error : string) (i : nat) (task : Task) :
  findTask (tasks state) taskId = Some (i, task) →
  ∃ task' state',
    failTask percent tB tH state taskId error = (Some task', state')
    ∧ tasks state' = <[i := task']> (tasks state)
    ∧ set_t_status (t_status task) (set_t_error (t_error task) task') = task
    ∧ t_error task' = Some error
    ∧ (t_attempts task >= t_maxAttempts task →
         t_status task' = Blocked
         ∧ blockers state'
           = blockers state
               ++ [mkBlocker taskId error tB (t_attempts task)])
    ∧ (t_attempts task < t_maxAttempts task →
         t_status task' = Pending ∧ blockers state' = blockers state)
    ∧ currentTasks state'
      = List.filter (λ ct, negb (bool_decide (ct_id ct = taskId)))
          (currentTasks state)
    ∧ Forall (λ ct, ct_id ct ≠ taskId) (currentTasks state')
    ∧ history state'
      = history state
          ++ [failedEntry tH task' error
                (bool_decide (t_status task' = Pending))]
    ∧ progress state' = progress (updateProgress percent state').
Proof.
  intros Hfind. pose proof Hfind as (_ & Hid & _)%findTask_Some.
  unfold failTask. rewrite Hfind.
  assert (Hct : ∀ cts, Forall (λ ct, ct_id ct ≠ taskId)
            (List.filter (λ ct, negb (bool_decide (ct_id ct = taskId))) cts)).
  { intros cts. apply Forall_forall. intros ct Hin.
    apply list_elem_of_In, filter_In in Hin as [_ Hne].
    apply negb_true_iff, bool_decide_eq_false in Hne. done. }
  destruct (Z.geb_spec (t_attempts (set_t_error (Some error) task))
              (t_maxAttempts (set_t_error (Some error) task))) as [Hcmp|Hcmp];
    cbn in Hcmp |- *.
  - do 2 eexists. split; [reflexivity|]. cbn.
    repeat split; try done; try lia.
    + by destruct task.
    + unfold failedEntry. cbn. by rewrite Hid.
  - do 2 eexists. split; [reflexivity|]. cbn.
    repeat split; try done; try lia.
    + by destruct task.
    + unfold failedEntry. cbn. by rewrite Hid.
Qed.

Lemma startTask_found (now tH : Timestamp) (state : ProjectState)
    (taskId : string) (i : nat) (task : Task) :
  findTask (tasks state) taskId = Some (i, task) →
  ∃ task' state',
    startTask percent now tH state taskId = (Some task', state')
    ∧ tasks state' = <[i := task']> (tasks state)
    ∧ findTask (tasks state') taskId = Some (i, task')
    ∧ task' = set_t_attempts (t_attempts task + 1)
                (set_t_startedAt (Some now) (set_t_status InProgress task))
    ∧ currentTasks state'
      = currentTasks state
          ++ [mkCurrentTask taskId (t_agent task) now (t_attempts task + 1)]
    ∧ blockers state' = blockers state
    ∧ history state' = history state ++ [startedEntry tH task']
    ∧ progress state' = progress (updateProgress percent state').
Proof.
  intros Hfind. pose proof Hfind as (_ & Hid & _)%findTask_Some.
  unfold startTask. rewrite Hfind.
  do 2 eexists. split; [reflexivity|]. cbn.
  repeat split; try done.
  - by eapply findTask_insert.
  - unfold startedEntry. cbn. by rewrite Hid.
Qed.

(** C3.  For a state in which the lookup of the id finds a task,
    [failTask] records the error on that task and changes nothing else of
    it but the status.  With [attempts >= maxAttempts] the status becomes
    blocked and exactly one blocker (task id, the error as reason, the
    attempt count) is appended; with [attempts < maxAttempts] the status
    becomes pending and no blocker is appended.  In both cases no current
    task pointer of that id remains and one [task_failed] entry is logged
    whose [willRetry] is true exactly when the status became pending.  The
    threshold lies exactly at [attempts = maxAttempts]: a failure at
    [maxAttempts] blocks, a failure at [maxAttempts - 1] (or anywhere
    below [maxAttempts]) does not, and a task at [maxAttempts - 1] that is
    started and then fails is blocked with [attempts = maxAttempts]. *)
Theorem failTask_spec (tB tH : Timestamp) (state : ProjectState)
    (taskId error : string) (i : nat) (task : Task) :
  findTask (tasks state) taskId = Some (i, task) →
  (∃ task' state' willRetry,
    failTask percent tB tH state taskId error = (Some task', state')
    ∧ tasks state' = <[i := task']> (tasks state)
    ∧ set_t_status (t_status task) (set_t_error (t_error task) task') = task
    ∧ t_error task' = Some error
    ∧ (t_attempts task >= t_maxAttempts task →
         t_status task' = Blocked
         ∧ blockers state'
           = blockers state
               ++ [mkBlocker taskId error tB (t_attempts task)])
    ∧ (t_attempts task < t_maxAttempts task →
         t_status task' = Pending ∧ blockers state' = blockers state)
    ∧ (t_status task' = Blocked ↔ t_attempts task >= t_maxAttempts task)
    ∧ (t_attempts task = t_maxAttempts task → t_status task' = Blocked)
    ∧ (t_attempts task = t_maxAttempts task - 1 → t_status task' = Pending)
    ∧ Forall (λ ct, ct_id ct ≠ taskId) (currentTasks state')
    ∧ (∀ ct, ct ∈ currentTasks state' ↔
             ct ∈ currentTasks state ∧ ct_id ct ≠ taskId)
    ∧ history state' = history state ++ [failedEntry tH task' error willRetry]
    ∧ (willRetry = true ↔ t_status task' = Pending))
  ∧ (∀ now tH0,
       t_attempts task = t_maxAttempts task - 1 →
       ∃ started state1 blocked state2,
         startTask percent now tH0 state taskId = (Some started, state1)
         ∧ failTask percent tB tH state1 taskId error = (Some blocked, state2)
         ∧ t_status blocked = Blocked
         ∧ t_attempts blocked = t_maxAttempts task
         ∧ t_maxAttempts blocked = t_maxAttempts task
         ∧ blockers state2
           = blockers state
               ++ [mkBlocker taskId error tB (t_maxAttempts task)]).
Proof.
  intros Hfind. split.
  - destruct (failTask_found tB tH state taskId error i task Hfind)
      as (task' & state' & Hrun & Htasks & Hsame & Herr & Hblock & Hretry
          & Hcur & Hnone & Hhist & _).
    exists task', state', (bool_decide (t_status task' = Pending)).
    split_and!; try done.
    + split.
      * intros Hb.
        destruct (Z_lt_ge_dec (t_attempts task) (t_maxAttempts task))
          as [Hlt|Hge]; [|done].
        destruct (Hretry Hlt) as [Hp _]. congruence.
      * intros Hge. by destruct (Hblock Hge).
    + intros Heq. destruct Hblock as [? _]; [lia|done].
    + intros Heq. destruct Hretry as [? _]; [lia|done].
    + intros ct. rewrite Hcur, !list_elem_of_In, filter_In.
      rewrite negb_true_iff, bool_decide_eq_false. done.
    + apply bool_decide_eq_true.
  - intros now tH0 Hlast.
    destruct (startTask_found now tH0 state taskId i task Hfind)
      as (started & state1 & Hrun1 & _ & Hfind1 & Hst & _ & Hbl1 & _).
    destruct (failTask_found tB tH state1 taskId error i started Hfind1)
      as (blocked & state2 & Hrun2 & _ & Hsame & _ & Hblock & _).
    exists started, state1, blocked, state2.
    assert (Ha : t_attempts started = t_maxAttempts task) by (subst; cbn; lia).
    assert (Hm : t_maxAttempts started = t_maxAttempts task) by (by subst).
    destruct Hblock as [Hb Hbl2]; [lia|].
    pose proof (f_equal t_attempts Hsame) as E1.
    pose proof (f_equal t_maxAttempts Hsame) as E2. cbn in E1, E2.
    repeat split; try done; try congruence.
Qed.

(** *** Three failures *)

Lemma failedAttempt_found clock error state taskId i task :
  findTask (tasks state) taskId = Some (i, task) →
  ∃ task',
    findTask (tasks (failedAttempt percent clock error state taskId)) taskId
      = Some (i, task')
    ∧ t_attempts task' = t_attempts task + 1
    ∧ t_maxAttempts task' = t_maxAttempts task
    ∧ (t_attempts task + 1 < t_maxAttempts task →
         t_status task' = Pending
         ∧ blockers (failedAttempt percent clock error state taskId)
           = blockers state)
    ∧ (t_attempts task + 1 >= t_maxAttempts task →
         t_status task' = Blocked
         ∧ blockers (failedAttempt percent clock error state taskId)
           = blockers state
               ++ [mkBlocker taskId error clock.1.2 (t_attempts task + 1)]).
Proof.
  destruct clock as [[[now tH1] tB] tH2]. intros Hfind.
  pose proof Hfind as (_ & Hid & _)%findTask_Some.
  unfold failedAttempt.
  destruct (startTask_found now tH1 state taskId i task Hfind)
    as (started & state1 & Hrun1 & _ & Hfind1 & Hst & _ & Hbl1 & _).
  destruct (failTask_found tB tH2 state1 taskId error i started Hfind1)
    as (task' & state2 & Hrun2 & Htasks & Hsame & _ & Hblock & Hretry & _).
  rewrite Hrun1. cbn [snd]. rewrite Hrun2. cbn [snd].
  pose proof (f_equal t_attempts Hsame) as E1.
  pose proof (f_equal t_maxAttempts Hsame) as E2.
  pose proof (f_equal t_id Hsame) as E3. cbn in E1, E2, E3.
  assert (Ha : t_attempts started = t_attempts task + 1) by (by subst).
  assert (Hm : t_maxAttempts started = t_maxAttempts task) by (by subst).
  assert (Hi : t_id started = taskId) by (by subst).
  exists task'. split.
  { rewrite Htasks. eapply findTask_insert; [done|congruence]. }
  split; [congruence|]. split; [congruence|]. split.
  - intros Hlt. destruct Hretry as [? ?]; [lia|]. split; congruence.
  - intros Hge. destruct Hblock as [? ?]; [lia|]. cbn. split; congruence.
Qed.

(** C4.  A task found with [attempts = 0] and [maxAttempts = 3] (pending
    at the start), in a state without a blocker for it: after one and after
    two start-and-fail cycles it is pending again and no blocker was added;
    after the third it is blocked, its [attempts] is 3, and the state holds
    exactly one blocker for its id. *)
Theorem three_failures_block clock1 clock2 clock3 err1 err2 err3
    (state : ProjectState) (taskId : string) (i : nat) (task : Task) :
  findTask (tasks state) taskId = Some (i, task) →
  t_status task = Pending →
  t_attempts task = 0 →
  t_maxAttempts task = 3 →
  blockersOf taskId state = [] →
  let state1 := failedAttempt percent clock1 err1 state taskId in
  let state2 := failedAttempt percent clock2 err2 state1 taskId in
  let state3 := failedAttempt percent clock3 err3 state2 taskId in
  (∃ t1, findTask (tasks state1) taskId = Some (i, t1)
         ∧ t_status t1 = Pending ∧ t_attempts t1 = 1
         ∧ blockers state1 = blockers state)
  ∧ (∃ t2, findTask (tasks state2) taskId = Some (i, t2)
           ∧ t_status t2 = Pending ∧ t_attempts t2 = 2
           ∧ blockers state2 = blockers state)
  ∧ (∃ t3, findTask (tasks state3) taskId = Some (i, t3)
           ∧ t_status t3 = Blocked ∧ t_attempts t3 = 3
           ∧ t_maxAttempts t3 = 3
           ∧ blockers state3
             = blockers state ++ [mkBlocker taskId err3 clock3.1.2 3]
           ∧ length (blockersOf taskId state3) = 1%nat).
Proof.
  intros Hfind _ Ha Hm Hnone state1 state2 state3.
  destruct (failedAttempt_found clock1 err1 state taskId i task Hfind)
    as (t1 & Hf1 & Ha1 & Hm1 & Hretry1 & _).
  destruct Hretry1 as [Hs1 Hb1]; [lia|].
  destruct (failedAttempt_found clock2 err2 state1 taskId i t1 Hf1)
    as (t2 & Hf2 & Ha2 & Hm2 & Hretry2 & _).
  destruct Hretry2 as [Hs2 Hb2]; [lia|].
  destruct (failedAttempt_found clock3 err3 state2 taskId i t2 Hf2)
    as (t3 & Hf3 & Ha3 & Hm3 & _ & Hblock3).
  destruct Hblock3 as [Hs3 Hb3]; [lia|].
  fold state1 in Hb1, Hf2, Hb2. fold state2 in Hb2, Hf3, Hb3.
  fold state3 in Hf3, Hb3.
  split; [exists t1; repeat split; try done; lia|].
  split; [exists t2; repeat split; try done; try lia; congruence|].
  exists t3.
  assert (Hb : blockers state3
               = blockers state ++ [mkBlocker taskId err3 clock3.1.2 3]).
  { rewrite Hb3, Hb2, Hb1. do 3 f_equal. lia. }
  repeat split; try done; try lia.
  unfold blockersOf in *. rewrite Hb, List.filter_app, Hnone. cbn.
  by rewrite bool_decide_eq_true_2.
Qed.

(** *** Progress counters *)

(** Every task is in exactly one of the five statuses. *)
Lemma countStatus_partition (all : list Task) :
  Z.of_nat (length all)
  = countStatus Pending all + countStatus InProgress all
    + countStatus Completed all + countStatus Blocked all
    + countStatus Skipped all.
Proof.
  unfold countStatus. induction all as [|t all IH]; [done|].
  cbn [List.filter length]. destruct (t_status t); cbn [bool_decide decide_rel];
    repeat (rewrite bool_decide_eq_true_2 by done)
    || (rewrite bool_decide_eq_false_2 by done); cbn [length]; lia.
Qed.

Lemma countStatus_nonneg (st : TaskStatus) (all : list Task) :
  0 ≤ countStatus st all.
Proof. unfold countStatus. lia. Qed.

Lemma updateProgress_consistent (state : ProjectState) :
  progressConsistent (updateProgress percent state).
Proof.
  unfold progressConsistent, updateProgress. cbn.
  pose proof (countStatus_partition (tasks state)).
  pose proof (countStatus_nonneg Pending (tasks state)).
  repeat split; try done; lia.
Qed.

Lemma progressConsistent_ext (s1 s2 : ProjectState) :
  tasks s1 = tasks s2 → progress s1 = progress s2 →
  progressConsistent s1 → progressConsistent s2.
Proof. unfold progressConsistent. by intros <- <-. Qed.

(** An operation either leaves the state as it is (lookup miss) or ends by
    recomputing the progress of the task collection it produced. *)
Lemma applyOp_recomputes (state : ProjectState) (op : LifecycleOp) :
  applyOp percent state op = state
  ∨ ∃ mid, tasks (applyOp percent state op) = tasks mid
           ∧ progress (applyOp percent state op)
             = progress (updateProgress percent mid).
Proof.
  destruct op as [now tH taskId|now tH taskId|tB tH taskId error|newTasks]; cbn.
  - unfold startTask. destruct (findTask (tasks state) taskId) as [[i task]|];
      [right|by left].
    eexists (set_tasks _ state). by cbn.
  - unfold completeTask. destruct (findTask (tasks state) taskId) as [[i task]|];
      [right|by left].
    eexists (set_tasks _ state). by cbn.
  - unfold failTask. destruct (findTask (tasks state) taskId) as [[i task]|];
      [right|by left].
    destruct (t_attempts (set_t_error (Some error) task)
                >=? t_maxAttempts (set_t_error (Some error) task)).
    + eexists (set_tasks _ state). by cbn.
    + eexists (set_tasks _ state). by cbn.
  - right. eexists (set_tasks _ state). by cbn.
Qed.

Lemma applyOp_consistent (state : ProjectState) (op : LifecycleOp) :
  progressConsistent state → progressConsistent (applyOp percent state op).
Proof.
  intros Hs. destruct (applyOp_recomputes state op) as [->|(mid & Ht & Hp)];
    [done|].
  eapply (progressConsistent_ext (updateProgress percent mid));
    [by rewrite Ht|by rewrite Hp|apply updateProgress_consistent].
Qed.

Lemma runOps_consistent (ops : list LifecycleOp) (state : ProjectState) :
  progressConsistent state → progressConsistent (runOps percent ops state).
Proof.
  revert state. induction ops as [|op ops IH]; intros state Hs; [done|].
  cbn. apply IH. by apply applyOp_consistent.
Qed.

(** A sequence of operations that changes the state at all leaves the
    progress record consistent, whatever it was before. *)
Lemma runOps_unchanged_or_consistent (ops : list LifecycleOp)
    (state : ProjectState) :
  runOps percent ops state = state
  ∨ progressConsistent (runOps percent ops state).
Proof.
  revert state. induction ops as [|op ops IH]; intros state; [by left|].
  cbn. destruct (applyOp_recomputes state op) as [->|(mid & Ht & Hp)];
    [apply IH|].
  right. apply runOps_consistent.
  eapply (progressConsistent_ext (updateProgress percent mid));
    [by rewrite Ht|by rewrite Hp|apply updateProgress_consistent].
Qed.

(** C5.  After [updateProgress], after every sequence of [startTask],
    [completeTask], [failTask] and [addTasks] calls that follows it, and
    after every such sequence on a newly initialised project, the total is
    the length of the task collection, the four counters are the numbers
    of tasks in their statuses, their sum is at most the total and the
    remainder is the number of pending tasks.  From an arbitrary state, a
    sequence either changes nothing (every call missed its task) or ends
    in a state where all of this holds. *)
Theorem progress_invariant (state : ProjectState) (ops : list LifecycleOp) :
  progressConsistent (updateProgress percent state)
  ∧ progressConsistent (runOps percent ops (updateProgress percent state))
  ∧ (∀ uuid now tSave name description slug disk,
       progressConsistent
         (runOps percent ops
            (initialize uuid now tSave name description slug disk).1))
  ∧ (runOps percent ops state = state
     ∨ progressConsistent (runOps percent ops state)).
Proof.
  split; [apply updateProgress_consistent|].
  split; [apply runOps_consistent, updateProgress_consistent|].
  split; [|apply runOps_unchanged_or_consistent].
  intros. apply runOps_consistent. unfold progressConsistent. cbn.
  unfold countStatus. cbn. lia.
Qed.

End Lifecycle.

(** ** Checkpoints *)

(** C6.  Restoring the checkpoint that [createCheckpoint] has just created
    succeeds and returns a state with the tasks (hence the task statuses)
    and the phase of the state at capture time.  The restored state holds
    the new checkpoint in its list, like the live state; its history is the
    captured history as serialised, followed by [checkpoint_restored], where
    the live state's history ends with [checkpoint_created]; its
    [updated] stamp is the time of the save; all other fields are those of
    the captured state. *)
Theorem checkpoint_roundtrip (tC tH tR tS : Timestamp) (disk : Disk)
    (state : ProjectState) (gitCommit description : option string) :
  let created := createCheckpoint tC tH disk state gitCommit description in
  let cp := created.1.1 in
  let live := created.1.2 in
  ∃ restored disk',
    restoreCheckpoint tR tS created.2 (cp_id cp) = inr (restored, disk')
    ∧ tasks restored = tasks state
    ∧ t_status <$> tasks restored = t_status <$> tasks state
    ∧ phase restored = phase state
    ∧ tasks live = tasks state
    ∧ phase live = phase state
    ∧ cp_phase cp = phase state
    ∧ cp_tasksCompleted cp = pr_completed (progress state)
    ∧ checkpoints live = checkpoints state ++ [cp]
    ∧ checkpoints restored = checkpoints state ++ [cp]
    ∧ history live = history state ++ [createdEntry tH cp]
    ∧ history restored
      = (JSON_entry <$> history state) ++ [restoredEntry tR (cp_id cp)]
    ∧ project restored = set_updated tS (project state)
    ∧ phases restored = phases state
    ∧ techStack restored = techStack state
    ∧ currentTasks restored = currentTasks state
    ∧ progress restored = progress state
    ∧ blockers restored = blockers state
    ∧ decisions restored = decisions state
    ∧ metrics restored = metrics state
    ∧ config restored = config state
    ∧ stateFile disk' = Some (JSON_roundtrip restored).
Proof.
  cbn. unfold restoreCheckpoint. cbn. rewrite lookup_insert_eq.
  do 2 eexists. split; [reflexivity|]. cbn. split_and!; reflexivity.
Qed.

(** A checkpoint id that names no snapshot is reported, not restored. *)
Lemma restoreCheckpoint_missing (tR tS : Timestamp) (disk : Disk)
    (checkpointId : string) :
  checkpointFiles disk !! checkpointFile checkpointId = None →
  restoreCheckpoint tR tS disk checkpointId
  = inl (CheckpointNotFound checkpointId).
Proof. intros H. unfold restoreCheckpoint. by rewrite H. Qed.

(** ** Sorting by priority *)





Lemma Array_sort_cons {A : Type} (cmp : A → A → Z) (x : A) (l : list A) :
  Array_sort cmp (x :: l) = sort_insert cmp x (Array_sort cmp l).
Proof. reflexivity. Qed.

Lemma Array_sort_nil_inv (l : list Task) :
  Array_sort byPriority l = [] → l = [].
Proof.
  destruct l as [|x l]; [done|]. rewrite Array_sort_cons.
  destruct (Array_sort byPriority l) as [|y r]; cbn; [done|].
  by destruct (byPriority x y <=? 0).
Qed.



Lemma sort_insert_elem_of (x u : Task) (l : list Task) :
  u ∈ sort_insert byPriority x l ↔ u = x ∨ u ∈ l.
Proof.
  induction l as [|y r IH]; cbn.
  - rewrite elem_of_cons, elem_of_nil. tauto.
  - destruct (byPriority x y <=? 0).
    + by rewrite elem_of_cons.
    + rewrite !elem_of_cons, IH. tauto.
Qed.









(** ** Eligibility and the next task *)

Lemma dependenciesCompleted_spec (all : list Task) (deps : list string) :
  dependenciesCompleted all deps = true ↔
    ∀ depId, depId ∈ deps →
      ∃ i dep, findTask all depId = Some (i, dep) ∧ t_status dep = Completed.
Proof.
  induction deps as [|d deps IH]; cbn.
  - split; [|done]. intros _ depId Hin. by apply elem_of_nil in Hin.
  - destruct (findTask all d) as [[i dep]|] eqn:Hfind.
    + destruct (decide (t_status dep = Completed)) as [Hc|Hc].
      * rewrite bool_decide_eq_true_2 by done. cbn. rewrite IH. split.
        -- intros H depId [->|Hin]%elem_of_cons; eauto.
        -- intros H depId Hin. apply H. by apply elem_of_cons; right.
      * rewrite bool_decide_eq_false_2 by done. cbn. split; [done|].
        intros H. destruct (H d) as (i' & dep' & Hf & Hs).
        { by apply elem_of_cons; left. }
        congruence.
    + split; [done|]. intros H. destruct (H d) as (i' & dep' & Hf & Hs).
      { by apply elem_of_cons; left. }
      congruence.
Qed.

Lemma isReady_eligible (state : ProjectState) (t : Task) :
  isReady state t = true ↔ eligible state t.
Proof.
  unfold isReady, eligible, areDependenciesMet.
  by rewrite andb_true_iff, bool_decide_eq_true, dependenciesCompleted_spec.
Qed.

(** With distinct task ids a dependency resolves to the one task that
    carries the id, so eligibility reads: pending, and for every dependency
    id some task of the collection has that id and is completed. *)
Lemma eligible_unique_ids (state : ProjectState) (t : Task) :
  NoDup (t_id <$> tasks state) →
  eligible state t ↔
    t_status t = Pending
    ∧ ∀ depId, depId ∈ t_dependencies t →
        ∃ dep, dep ∈ tasks state ∧ t_id dep = depId
               ∧ t_status dep = Completed.
Proof.
  intros Hnd. unfold eligible. split; intros [Hp Hdeps]; (split; [done|]);
    intros depId Hin; specialize (Hdeps depId Hin).
  - destruct Hdeps as (i & dep & (Hi & Hid & _)%findTask_Some & Hs).
    exists dep. split_and!; [|done|done]. by eapply list_elem_of_lookup_2.
  - destruct Hdeps as (dep & Hmem & Hid & Hs).
    apply list_elem_of_lookup in Hmem as [j Hj].
    destruct (findTask (tasks state) depId) as [[i dep']|] eqn:Hfind.
    + pose proof Hfind as (Hi & Hid' & _)%findTask_Some.
      assert (i = j) as ->.
      { apply (NoDup_lookup (t_id <$> tasks state) i j depId Hnd);
          rewrite list_lookup_fmap; [rewrite Hi|rewrite Hj]; cbn; congruence. }
      exists j, dep. split; congruence.
    + apply findTask_None in Hfind. rewrite Forall_forall in Hfind.
      exfalso. eapply Hfind; [|exact Hid]. by eapply list_elem_of_lookup_2.
Qed.


(** ** Parallel batches *)

(** *** The Map of agent groups *)

Lemma Map_get_set {K V : Type} `{EqDecision K} (k k' : K) (v : V)
    (m : list (K * V)) :
  Map_get k (Map_set k' v m) = if decide (k = k') then Some v else Map_get k m.
Proof.
  induction m as [|[k0 v0] m IH]; cbn.
  - by destruct (decide (k = k')).
  - destruct (decide (k' = k0)) as [->|Hne]; cbn.
    + destruct (decide (k = k0)); done.
    + rewrite IH. destruct (decide (k = k0)) as [->|]; [|done].
      destruct (decide (k0 = k')); congruence.
Qed.

Lemma Map_set_keys {K V : Type} `{EqDecision K} (k : K) (v : V)
    (m : list (K * V)) :
  (Map_set k v m).*1 = if decide (k ∈ m.*1) then m.*1 else m.*1 ++ [k].
Proof.
  induction m as [|[k0 v0] m IH]; cbn.
  - destruct (decide (k ∈ [])) as [Hin|]; [|done]. by apply elem_of_nil in Hin.
  - destruct (decide (k = k0)) as [->|Hne]; cbn.
    + rewrite decide_True; [done|]. by apply elem_of_cons; left.
    + rewrite IH. destruct (decide (k ∈ m.*1)) as [Hin|Hnin].
      * rewrite decide_True; [done|]. by apply elem_of_cons; right.
      * rewrite decide_False; [done|].
        intros [?|?]%elem_of_cons; done.
Qed.

Lemma Map_set_NoDup {K V : Type} `{EqDecision K} (k : K) (v : V)
    (m : list (K * V)) :
  NoDup m.*1 → NoDup (Map_set k v m).*1.
Proof.
  intros Hnd. rewrite Map_set_keys. destruct (decide (k ∈ m.*1)); [done|].
  apply NoDup_app. split_and!; [done| |apply NoDup_singleton].
  intros x Hx ->%list_elem_of_singleton. done.
Qed.

Lemma elem_of_Map_get {K V : Type} `{EqDecision K} (k : K) (v : V)
    (m : list (K * V)) :
  NoDup m.*1 → (k, v) ∈ m → Map_get k m = Some v.
Proof.
  induction m as [|[k0 v0] m IH]; cbn; intros Hnd Hin.
  - by apply elem_of_nil in Hin.
  - apply NoDup_cons in Hnd as [Hk0 Hnd].
    apply elem_of_cons in Hin as [[= -> ->]|Hin].
    + by rewrite decide_True.
    + rewrite decide_False; [by apply IH|].
      intros ->. apply Hk0. apply list_elem_of_fmap. by exists (k0, v).
Qed.

Lemma groupByAgent_snoc (l : list Task) (t : Task) :
  groupByAgent (l ++ [t])
  = Map_set (t_agent t)
      (default [] (Map_get (t_agent t) (groupByAgent l)) ++ [t])
      (groupByAgent l).
Proof. unfold groupByAgent. by rewrite foldl_app. Qed.

(** A group holds, in their order, the tasks of its agent; groups exist
    for the agents that have a task, once each. *)
Lemma groupByAgent_spec (pending : list Task) :
  NoDup (groupByAgent pending).*1
  ∧ ∀ a, Map_get a (groupByAgent pending)
         = match agentTasks a pending with
           | [] => None
           | ts => Some ts
           end.
Proof.
  induction pending as [|t l [IHnd IHget]] using rev_ind.
  - split; [constructor|done].
  - rewrite groupByAgent_snoc. split; [by apply Map_set_NoDup|].
    intros a. rewrite Map_get_set. unfold agentTasks.
    rewrite List.filter_app. cbn [List.filter].
    destruct (decide (a = t_agent t)) as [->|Hne].
    + rewrite bool_decide_eq_true_2 by done. rewrite IHget.
      unfold agentTasks.
      by destruct (List.filter (λ u, bool_decide (t_agent u = t_agent t)) l).
    + rewrite bool_decide_eq_false_2 by done. by rewrite app_nil_r, IHget.
Qed.

Lemma groupByAgent_elem (pending : list Task) (a : AgentType) (ts : list Task) :
  (a, ts) ∈ groupByAgent pending → ts = agentTasks a pending.
Proof.
  destruct (groupByAgent_spec pending) as [Hnd Hget]. intros Hin.
  apply elem_of_Map_get in Hin; [|done]. rewrite Hget in Hin.
  by destruct (agentTasks a pending); simplify_eq.
Qed.

(** *** Output conflicts *)


(** *** The selection loop *)

Lemma selectPerAgent_Picked (maxTasks : Z) (groups : list (AgentType * list Task))
    (selected : list Task) :
  ∃ added,
    selectPerAgent maxTasks groups selected = selected ++ added
    ∧ Picked groups selected added.
Proof.
  revert selected. induction groups as [|[a ts] groups IH]; intros selected; cbn.
  - exists []. split; [by rewrite app_nil_r|constructor].
  - destruct (Z.of_nat (length selected) >=? maxTasks).
    { exists []. split; [by rewrite app_nil_r|constructor]. }
    fold (freeOf selected).
    destruct (List.find (freeOf selected) (Array_sort byPriority ts))
      as [t|] eqn:Hfind.
    + destruct (IH (selected ++ [t])) as (added & -> & Hpicked).
      exists (t :: added). split; [by rewrite <- app_assoc|].
      by apply Picked_take.
    + destruct (IH selected) as (added & -> & Hpicked).
      exists added. split; [done|]. by apply Picked_pass.
Qed.


Lemma Array_sort_elem_of (u : Task) (l : list Task) :
  u ∈ Array_sort byPriority l ↔ u ∈ l.
Proof.
  induction l as [|x l IH]; [done|].
  rewrite Array_sort_cons, sort_insert_elem_of, elem_of_cons, IH. done.
Qed.

Lemma Picked_agents groups selected added :
  Picked groups selected added →
  groupsWellFormed groups →
  NoDup (t_agent <$> added) ∧ Forall (λ t, t_agent t ∈ groups.*1) added.
Proof.
  induction 1 as [groups selected|a ts groups selected added _ IH
                 |a ts groups selected t added Hfind _ IH];
    intros [Hnd Hwf].
  - split; constructor.
  - apply NoDup_cons in Hnd as [Ha Hnd]. apply Forall_cons in Hwf as [_ Hwf].
    destruct (IH (conj Hnd Hwf)) as [IH1 IH2]. split; [done|].
    eapply Forall_impl; [exact IH2|]. cbn. intros u Hu.
    by apply elem_of_cons; right.
  - cbn in Hnd. apply NoDup_cons in Hnd as [Ha Hnd].
    apply Forall_cons in Hwf as [Hts Hwf]. cbn in Hts.
    destruct (IH (conj Hnd Hwf)) as [IH1 IH2].
    assert (Hat : t_agent t = a).
    { apply find_some in Hfind as [Hin _].
      apply list_elem_of_In in Hin. rewrite Array_sort_elem_of in Hin.
      rewrite Forall_forall in Hts. by apply Hts. }
    split.
    + cbn. apply NoDup_cons. split; [|done]. rewrite Hat.
      intros (u & Hu & Hin)%list_elem_of_fmap.
      rewrite Forall_forall in IH2. apply Ha. rewrite Hu. by apply IH2.
    + apply Forall_cons. split.
      * rewrite Hat. by apply elem_of_cons; left.
      * eapply Forall_impl; [exact IH2|]. cbn. intros u Hu.
        by apply elem_of_cons; right.
Qed.


Lemma groupByAgent_wellFormed (pending : list Task) :
  groupsWellFormed (groupByAgent pending).
Proof.
  split; [apply groupByAgent_spec|].
  apply Forall_forall. intros [a ts] Hin. cbn.
  apply groupByAgent_elem in Hin as ->.
  apply Forall_forall. intros t Ht.
  apply list_elem_of_In, filter_In in Ht as [_ Ht].
  by apply bool_decide_eq_true in Ht.
Qed.




(** A bound that is zero or negative selects nothing: the loop stops
    before its first selection. *)
Lemma getParallelizableTasks_nonpositive (state : ProjectState) (n : Z) :
  n ≤ 0 → getParallelizableTasks state n = [].
Proof.
  intros Hn. unfold getParallelizableTasks.
  destruct (groupByAgent _) as [|[a ts] groups]; [done|].
  cbn [selectPerAgent].
  destruct (Z.geb_spec (Z.of_nat (length (@nil Task))) n) as [_|Hlt];
    [done|cbn in Hlt; lia].
Qed.

(** ** Closed instances *)


Lemma lifecycle_lookup_miss_witness :
  Forall (λ t, t_id t ≠ "T-9") (tasks plannedProject)
  ∧ startTask percentExact 3000 3001 plannedProject "T-9" = (None, plannedProject)
  ∧ completeTask percentExact 3000 3001 plannedProject "T-9"
    = (None, plannedProject)
  ∧ failTask percentExact 3000 3001 plannedProject "T-9" "timeout"
    = (None, plannedProject).
Proof.
  assert (H : Forall (λ t, t_id t ≠ "T-9") (tasks plannedProject)).
  { repeat constructor; discriminate. }
  split; [exact H|].
  exact (lifecycle_lookup_miss percentExact 3000 3001 plannedProject "T-9"
           "timeout" H).
Defined.

Lemma failTask_spec_witness :
  findTask (tasks plannedProject) "T-1"
  = Some (0%nat, sampleTask "T-1" BackendDev High [] ["src/api.ts"])
  ∧ ∃ task' state',
      failTask percentExact 3000 3001 plannedProject "T-1" "timeout"
      = (Some task', state')
      ∧ t_error task' = Some "timeout"
      ∧ t_status task' = Pending
      ∧ blockers state' = blockers plannedProject.
Proof.
  assert (H : findTask (tasks plannedProject) "T-1"
              = Some (0%nat, sampleTask "T-1" BackendDev High [] ["src/api.ts"])).
  { reflexivity. }
  split; [exact H|].
  destruct (failTask_spec percentExact 3000 3001 plannedProject "T-1" "timeout"
              0%nat _ H)
    as [(task' & state' & w & Hrun & _ & _ & Herr & _ & Hretry & _) _].
  exists task', state'.
  destruct Hretry as [Hp Hb]; [cbn; lia|].
  split_and!; [exact Hrun|exact Herr|exact Hp|exact Hb].
Defined.

Lemma three_failures_block_witness :
  let clock := (3000, 3001, 3002, 3003) in
  let state3 :=
    failedAttempt percentExact clock "timeout"
      (failedAttempt percentExact clock "timeout"
         (failedAttempt percentExact clock "timeout" plannedProject "T-1")
         "T-1")
      "T-1" in
  ∃ t3, findTask (tasks state3) "T-1" = Some (0%nat, t3)
        ∧ t_status t3 = Blocked ∧ t_attempts t3 = 3
        ∧ length (blockersOf "T-1" state3) = 1%nat.
Proof.
  intros clock state3.
  assert (H : findTask (tasks plannedProject) "T-1"
              = Some (0%nat, sampleTask "T-1" BackendDev High [] ["src/api.ts"])).
  { reflexivity. }
  destruct (three_failures_block percentExact clock clock clock
              "timeout" "timeout" "timeout" plannedProject "T-1" 0%nat _ H
              eq_refl eq_refl eq_refl eq_refl)
    as (_ & _ & t3 & Hf & Hs & Ha & _ & _ & Hlen).
  exists t3. split_and!; [exact Hf|exact Hs|exact Ha|exact Hlen].
Defined.

(** ** Scenarios *)

(** In [scenarioAB] task A is next; once A is completed, B is next. *)
Example scenario_next_is_A :
  t_id <$> getNextTask scenarioAB = Some "A".
Proof. reflexivity. Qed.

Example scenario_next_is_B_after_A :
  t_id <$> getNextTask
             (completeTask percentExact 4000 4001
                (startTask percentExact 3000 3001 scenarioAB "A").2 "A").2
  = Some "B".
Proof. reflexivity. Qed.

(** Three pending tasks without dependencies, of distinct agents and with
    disjoint outputs, are all selected with a bound of 3. *)
Example scenario_three_parallel :
  t_id <$> getParallelizableTasks
             (addTasks percentExact freshProject
                [sampleTask "X" BackendDev Medium [] ["src/x.ts"];
                 sampleTask "Y" FrontendDev Low [] ["src/y.ts"];
                 sampleTask "Z" TestEngineer High [] ["src/z.ts"]]) 3
  = ["X"; "Y"; "Z"].
Proof. reflexivity. Qed.

(** Two pending tasks of different agents that both write [src/app.ts]:
    only the first group's task is selected. *)
Example scenario_output_conflict :
  t_id <$> getParallelizableTasks
             (addTasks percentExact freshProject
                [sampleTask "X" BackendDev Medium [] ["src/app.ts"];
                 sampleTask "Y" FrontendDev Critical [] ["src/app.ts"]]) 3
  = ["X"].
Proof. reflexivity. Qed.

(** A blocked task that is started and fails again is blocked again with
    [attempts] above [maxAttempts], and a second blocker is recorded. *)
Example scenario_blocked_again :
  let clock := (3000, 3001, 3002, 3003) in
  let retry s := failedAttempt percentExact clock "timeout" s "T-1" in
  let state4 := retry (retry (retry (retry plannedProject))) in
  ((λ t, (t_status t, t_attempts t)) <$> head (tasks state4),
   length (blockersOf "T-1" state4))
  = (Some (Blocked, 4), 2%nat).
Proof. reflexivity. Qed.


(** * Further properties *)

(** ** Lookup after a write *)

(** A write to the task at index [i] that keeps its id changes no lookup
    but by the task it returns at [i]. *)
Lemma findTask_cons (x : Task) (l : list Task) (d : string) :
  findTask (x :: l) d
  = if decide (t_id x = d) then Some (0%nat, x)
    else prod_map S id <$> findTask l d.
Proof. reflexivity. Qed.

Lemma findTask_insert_gen (all : list Task) (i : nat) (t t' : Task) (d : string) :
  all !! i = Some t →
  t_id t' = t_id t →
  findTask (<[i := t']> all) d
  = (λ r, (r.1, if decide (r.1 = i) then t' else r.2)) <$> findTask all d.
Proof.
  revert i. induction all as [|x l IH]; intros i Hi Hid; [done|].
  destruct i as [|i]; cbn in Hi.
  - injection Hi as ->.
    change (<[0%nat := t']> (t :: l)) with (t' :: l).
    rewrite !findTask_cons, Hid. destruct (decide (t_id t = d)); [done|].
    destruct (findTask l d) as [[j u]|]; [|done]. cbn.
    by rewrite decide_False by lia.
  - change (<[S i := t']> (x :: l)) with (x :: <[i := t']> l).
    rewrite !findTask_cons. destruct (decide (t_id x = d)); [done|].
    rewrite (IH i Hi Hid).
    destruct (findTask l d) as [[j u]|]; [|done]. cbn.
    destruct (decide (j = i)) as [->|Hne].
    + by rewrite decide_True.
    + by rewrite decide_False by lia.
Qed.

Lemma findTask_insert_other (all : list Task) (i : nat) (t t' : Task) (d : string) :
  all !! i = Some t →
  t_id t' = t_id t →
  d ≠ t_id t →
  findTask (<[i := t']> all) d = findTask all d.
Proof.
  intros Hi Hid Hd. rewrite (findTask_insert_gen all i t t' d Hi Hid).
  destruct (findTask all d) as [[j u]|] eqn:Hfind; [|done]. cbn.
  destruct (decide (j = i)) as [->|]; [|done].
  apply findTask_Some in Hfind as (Hj & Hu & _). congruence.
Qed.

(** The ids that resolve are the ids of the collection. *)
Lemma findTask_is_Some_ids (all : list Task) (d : string) :
  is_Some (findTask all d) ↔ d ∈ t_id <$> all.
Proof.
  rewrite <- findTask_is_Some, list_elem_of_fmap. split.
  - intros (t & Hin & Hid). by exists t.
  - intros (t & Hid & Hin). by exists t.
Qed.

Lemma insert_same_ids (all : list Task) (i : nat) (t t' : Task) :
  all !! i = Some t → t_id t' = t_id t →
  t_id <$> <[i := t']> all = t_id <$> all.
Proof.
  intros Hi Hid. rewrite list_fmap_insert, Hid.
  apply list_insert_id. by rewrite list_lookup_fmap, Hi.
Qed.

(** ** Elapsed minutes *)

(** X1.  The minutes recorded on completion are the elapsed time rounded to
    the nearest minute, half a minute rounding up: they differ from the
    elapsed milliseconds by at most 30 seconds, are 0 for less than 30
    seconds, and are not negative when the completion is not before the
    start. *)
Theorem roundMinutes_bounds (start finish : Timestamp) :
  60000 * roundMinutes start finish - 30000 ≤ finish - start
  ∧ finish - start < 60000 * roundMinutes start finish + 30000
  ∧ (start ≤ finish → 0 ≤ roundMinutes start finish)
  ∧ (start ≤ finish → finish - start < 30000 → roundMinutes start finish = 0)
  ∧ (∀ m, finish - start = 60000 * m → roundMinutes start finish = m).
Proof.
  unfold roundMinutes.
  pose proof (Z.div_mod (finish - start + 30000) 60000 ltac:(lia)) as Hdm.
  pose proof (Z.mod_pos_bound (finish - start + 30000) 60000 ltac:(lia)) as Hb.
  split_and!; [lia|lia|lia|lia|].
  intros m Hm. lia.
Qed.

(** The filter of [completeTask] and [failTask] leaves no pointer of the
    id. *)
Lemma pointers_removed (taskId : string) (cts : list CurrentTask) :
  List.filter (λ ct, bool_decide (ct_id ct = taskId))
    (List.filter (λ ct, negb (bool_decide (ct_id ct = taskId))) cts)
  = [].
Proof.
  induction cts as [|ct cts IH]; [done|]. cbn.
  destruct (decide (ct_id ct = taskId)) as [Heq|Hne].
  - by rewrite (bool_decide_eq_true_2 _ Heq).
  - rewrite (bool_decide_eq_false_2 _ Hne). cbn.
    by rewrite (bool_decide_eq_false_2 _ Hne).
Qed.

Section MoreLifecycle.

Variable percent : Z → Z → Z.

(** ** Completion *)

(** X2.  When the lookup of the id finds a task, [completeTask] writes
    that task only: status completed, completion stamp, error cleared, and
    the rounded elapsed minutes when the task has a start stamp (otherwise
    [actualMinutes] is left as it was); nothing else of the task changes.
    Every pointer of the id is removed, the blockers are left as they are
    (a blocker of the task stays), and one [task_completed] entry carrying
    the minutes is logged. *)
Theorem completeTask_spec (now tH : Timestamp) (state : ProjectState)
    (taskId : string) (i : nat) (task : Task) :
  findTask (tasks state) taskId = Some (i, task) →
  ∃ task' state',
    completeTask percent now tH state taskId = (Some task', state')
    ∧ tasks state' = <[i := task']> (tasks state)
    ∧ t_status task' = Completed
    ∧ t_completedAt task' = Some now
    ∧ t_error task' = None
    ∧ t_actualMinutes task'
      = match t_startedAt task with
        | Some start => Some (roundMinutes start now)
        | None => t_actualMinutes task
        end
    ∧ sameDefinition task task'
    ∧ t_attempts task' = t_attempts task
    ∧ t_startedAt task' = t_startedAt task
    ∧ pointersOf taskId state' = []
    ∧ (∀ ct, ct ∈ currentTasks state' ↔
             ct ∈ currentTasks state ∧ ct_id ct ≠ taskId)
    ∧ blockers state' = blockers state
    ∧ history state' = history state ++ [completedEntry tH task']
    ∧ progress state' = progress (updateProgress percent state').
Proof.
  intros Hfind. pose proof Hfind as (_ & Hid & _)%findTask_Some.
  unfold completeTask. rewrite Hfind.
  pose proof (pointers_removed taskId (currentTasks state)) as Hptr.
  do 2 eexists. split; [reflexivity|]. unfold pointersOf, completedEntry.
  assert (Hmem : ∀ ct,
            ct ∈ List.filter (λ ct, negb (bool_decide (ct_id ct = taskId)))
                   (currentTasks state)
            ↔ ct ∈ currentTasks state ∧ ct_id ct ≠ taskId).
  { intros ct. rewrite !list_elem_of_In, filter_In.
    by rewrite negb_true_iff, bool_decide_eq_false. }
  destruct (t_startedAt task) as [start|] eqn:Hstart; cbn; rewrite ?Hstart;
    split_and!;
    first [done | by unfold sameDefinition | by (cbn; rewrite Hid)].
Qed.


(** ** What one operation writes *)

(** A lifecycle operation leaves the task collection as it is, or writes
    one task in place keeping its definition and not lowering its
    attempts, or appends the new tasks. *)
Lemma applyOp_tasks (state : ProjectState) (op : LifecycleOp) :
  tasks (applyOp percent state op) = tasks state
  ∨ (∃ taskId i t t',
       opTarget op = Some taskId
       ∧ findTask (tasks state) taskId = Some (i, t)
       ∧ sameDefinition t t'
       ∧ t_attempts t ≤ t_attempts t'
       ∧ tasks (applyOp percent state op) = <[i := t']> (tasks state))
  ∨ (∃ newTasks,
       op = OpAddTasks newTasks
       ∧ tasks (applyOp percent state op) = tasks state ++ newTasks).
Proof.
  destruct op as [now tH taskId|now tH taskId|tB tH taskId error|newTasks]; cbn.
  - unfold startTask.
    destruct (findTask (tasks state) taskId) as [[i task]|] eqn:Hfind;
      [right; left|by left].
    eexists taskId, i, task, _. split_and!; [done|done| | |reflexivity].
    + by unfold sameDefinition.
    + cbn. lia.
  - unfold completeTask.
    destruct (findTask (tasks state) taskId) as [[i task]|] eqn:Hfind;
      [right; left|by left].
    eexists taskId, i, task, _. split_and!; [done|done| | |reflexivity].
    + unfold sameDefinition. cbn. by destruct (t_startedAt task).
    + cbn. destruct (t_startedAt task); cbn; lia.
  - unfold failTask.
    destruct (findTask (tasks state) taskId) as [[i task]|] eqn:Hfind;
      [right; left|by left].
    destruct (t_attempts (set_t_error (Some error) task)
                >=? t_maxAttempts (set_t_error (Some error) task));
      (eexists taskId, i, task, _; split_and!; [done|done| | |reflexivity]);
      first [by unfold sameDefinition | cbn; lia].
  - right; right. by exists newTasks.
Qed.

(** ** Locality of the lifecycle operations *)

Lemma dependenciesCompleted_insert (all : list Task) (i : nat) (t t' : Task)
    (deps : list string) :
  all !! i = Some t →
  t_id t' = t_id t →
  t_id t ∉ deps →
  dependenciesCompleted (<[i := t']> all) deps = dependenciesCompleted all deps.
Proof.
  intros Hi Hid. induction deps as [|d deps IH]; intros Hnotin; [done|].
  cbn. rewrite (findTask_insert_other all i t t' d Hi Hid).
  - destruct (findTask all d) as [[j u]|]; [|done].
    destruct (negb _); [done|]. apply IH. set_solver.
  - intros ->. apply Hnotin. by apply elem_of_cons; left.
Qed.


Lemma completeTask_tasks (now tH : Timestamp) (state : ProjectState)
    (taskId : string) (i : nat) (task : Task) :
  findTask (tasks state) taskId = Some (i, task) →
  ∃ task',
    tasks (completeTask percent now tH state taskId).2
    = <[i := task']> (tasks state)
    ∧ t_id task' = t_id task
    ∧ t_status task' = Completed.
Proof.
  intros Hfind. unfold completeTask. rewrite Hfind. cbn.
  eexists. split; [reflexivity|]. by destruct (t_startedAt task).
Qed.

(** X4.  Once a task is completed, a pending task elsewhere in the
    collection all of whose dependencies are the completed id or resolve
    to completed tasks is eligible. *)
Theorem completeTask_unlocks (now tH : Timestamp) (state : ProjectState)
    (taskId : string) (i j : nat) (task u : Task) :
  findTask (tasks state) taskId = Some (i, task) →
  tasks state !! j = Some u →
  j ≠ i →
  t_status u = Pending →
  (∀ d, d ∈ t_dependencies u →
        d = taskId
        ∨ ∃ k dep, findTask (tasks state) d = Some (k, dep)
                   ∧ t_status dep = Completed) →
  let state' := (completeTask percent now tH state taskId).2 in
  tasks state' !! j = Some u
  ∧ eligible state' u
  ∧ isReady state' u = true.
Proof.
  intros Hfind Hj Hne Hpending Hdeps state'.
  destruct (completeTask_tasks now tH state taskId i task Hfind)
    as (task' & Htasks & Hid' & Hstatus).
  subst state'. set (st := (completeTask percent now tH state taskId).2) in *.
  pose proof Hfind as (Hi & Hid & _)%findTask_Some.
  assert (Hel : eligible st u).
  { split; [done|]. intros d Hd. rewrite Htasks.
    rewrite (findTask_insert_gen _ i task task' d Hi Hid').
    destruct (Hdeps d Hd) as [->|(k & dep & Hk & Hc)].
    - rewrite Hfind. cbn. rewrite decide_True by done. eauto.
    - rewrite Hk. cbn. destruct (decide (k = i)) as [->|]; eauto. }
  split_and!; [|done|by apply isReady_eligible].
  rewrite Htasks. by rewrite list_lookup_insert_ne.
Qed.

(** ** Starting a task *)

(** X5.  When the lookup of the id finds a task, [startTask] sets it in
    progress whatever its status was, stamps the start, raises [attempts]
    by one, and appends one pointer carrying the new attempt number: a
    start of a task that is already in progress leaves the earlier pointer
    in place and adds another. *)
Theorem startTask_spec (now tH : Timestamp) (state : ProjectState)
    (taskId : string) (i : nat) (task : Task) :
  findTask (tasks state) taskId = Some (i, task) →
  ∃ task' state',
    startTask percent now tH state taskId = (Some task', state')
    ∧ tasks state' = <[i := task']> (tasks state)
    ∧ t_status task' = InProgress
    ∧ t_startedAt task' = Some now
    ∧ t_attempts task' = t_attempts task + 1
    ∧ sameDefinition task task'
    ∧ t_completedAt task' = t_completedAt task
    ∧ t_error task' = t_error task
    ∧ t_actualMinutes task' = t_actualMinutes task
    ∧ currentTasks state'
      = currentTasks state
          ++ [mkCurrentTask taskId (t_agent task) now (t_attempts task + 1)]
    ∧ length (pointersOf taskId state')
      = S (length (pointersOf taskId state))
    ∧ blockers state' = blockers state
    ∧ history state' = history state ++ [startedEntry tH task'].
Proof.
  intros Hfind.
  destruct (startTask_found percent now tH state taskId i task Hfind)
    as (task' & state' & Hrun & Htasks & _ & -> & Hcur & Hbl & Hhist & _).
  eexists _, state'. split_and!; try done.
  unfold pointersOf. rewrite Hcur, List.filter_app, length_app. cbn.
  rewrite bool_decide_eq_true_2 by done. cbn. lia.
Qed.

(** X6.  A start followed by a completion of the same id: the task is
    completed with one more attempt, both stamps, the elapsed minutes
    between the two clock reads and no error; no pointer of the id is
    left, however many there were. *)
Theorem start_then_complete (now1 tH1 now2 tH2 : Timestamp)
    (state : ProjectState) (taskId : string) (i : nat) (task : Task) :
  findTask (tasks state) taskId = Some (i, task) →
  let state1 := (startTask percent now1 tH1 state taskId).2 in
  let state2 := (completeTask percent now2 tH2 state1 taskId).2 in
  ∃ done,
    findTask (tasks state2) taskId = Some (i, done)
    ∧ tasks state2 = <[i := done]> (tasks state)
    ∧ t_status done = Completed
    ∧ t_attempts done = t_attempts task + 1
    ∧ t_startedAt done = Some now1
    ∧ t_completedAt done = Some now2
    ∧ t_actualMinutes done = Some (roundMinutes now1 now2)
    ∧ t_error done = None
    ∧ sameDefinition task done
    ∧ pointersOf taskId state2 = []
    ∧ length (history state2) = (length (history state) + 2)%nat.
Proof.
  intros Hfind state1 state2. subst state1 state2.
  pose proof Hfind as (Hi & Hid & _)%findTask_Some.
  destruct (startTask_found percent now1 tH1 state taskId i task Hfind)
    as (started & state1 & Hrun1 & Htasks1 & Hfind1 & -> & Hcur & _ & Hhist1 & _).
  rewrite Hrun1. cbn [snd].
  unfold completeTask. rewrite Hfind1. cbn.
  exists (set_t_actualMinutes (Some (roundMinutes now1 now2))
            (set_t_error None
               (set_t_completedAt (Some now2)
                  (set_t_status Completed
                     (set_t_attempts (t_attempts task + 1)
                        (set_t_startedAt (Some now1)
                           (set_t_status InProgress task))))))).
  split_and!; try done.
  - eapply findTask_insert; [exact Hfind1|done].
  - by rewrite Htasks1, list_insert_insert_eq.
  - unfold pointersOf. cbn. apply pointers_removed.
  - rewrite Hhist1, !length_app. cbn. lia.
Qed.

(** ** Adding tasks *)

(** X7.  [addTasks] appends without looking at ids: an id that resolved before
    resolves to the same task at the same index afterwards, even when a
    new task carries the same id (the new task is shadowed); an id that did
    not resolve resolves to the first new task that carries it. *)
Theorem addTasks_lookup (state : ProjectState) (newTasks : list Task)
    (taskId : string) :
  findTask (tasks (addTasks percent state newTasks)) taskId
  = match findTask (tasks state) taskId with
    | Some found => Some found
    | None =>
        prod_map (λ n, (n + length (tasks state))%nat) id
          <$> findTask newTasks taskId
    end.
Proof.
  cbn. unfold findTask.
  destruct (list_find _ (tasks state)) as [[i t]|] eqn:Hfind.
  - by apply list_find_app_l.
  - by apply list_find_app_r.
Qed.

(** X8.  Adding tasks in two calls is adding them in one: the task collection
    and the progress are those of the single call. *)
Theorem addTasks_append (state : ProjectState) (first second : list Task) :
  addTasks percent (addTasks percent state first) second
  = addTasks percent state (first ++ second).
Proof.
  unfold addTasks, updateProgress. cbn. by rewrite <- app_assoc.
Qed.

End MoreLifecycle.

(** ** The two selection functions together *)

Lemma getNextTask_None_iff (state : ProjectState) :
  getNextTask state = None ↔ List.filter (isReady state) (tasks state) = [].
Proof.
  unfold getNextTask.
  destruct (List.filter (isReady state) (tasks state)) as [|x l] eqn:Hf.
  - done.
  - cbn [length]. destruct (Z.eqb_spec (Z.of_nat (S (length l))) 0); [lia|].
    split; [|done]. intros Hhead.
    destruct (Array_sort byPriority (x :: l)) eqn:Hsort; [|done].
    by apply Array_sort_nil_inv in Hsort.
Qed.

Lemma groupByAgent_head (pending : list Task) :
  pending ≠ [] →
  ∃ a ts rest, groupByAgent pending = (a, ts) :: rest ∧ ts ≠ [].
Proof.
  intros Hne. destruct (groupByAgent_spec pending) as [_ Hget].
  destruct (groupByAgent pending) as [|[a ts] rest] eqn:Hgroups.
  - destruct pending as [|t l]; [done|]. specialize (Hget (t_agent t)).
    unfold agentTasks in Hget. cbn in Hget.
    by rewrite bool_decide_eq_true_2 in Hget.
  - exists a, ts, rest. split; [done|]. specialize (Hget a). cbn in Hget.
    rewrite decide_True in Hget by done.
    destruct (agentTasks a pending); [done|]. by injection Hget as ->.
Qed.

Lemma selectPerAgent_extends (maxTasks : Z)
    (groups : list (AgentType * list Task)) (selected : list Task) :
  selected `prefix_of` selectPerAgent maxTasks groups selected.
Proof.
  destruct (selectPerAgent_Picked maxTasks groups selected) as (added & -> & _).
  by apply prefix_app_r.
Qed.

Lemma selectPerAgent_mono (n m : Z) (groups : list (AgentType * list Task))
    (selected : list Task) :
  n ≤ m →
  selectPerAgent n groups selected `prefix_of` selectPerAgent m groups selected.
Proof.
  intros Hnm. revert selected.
  induction groups as [|[a ts] groups IH]; intros selected; [done|].
  cbn [selectPerAgent].
  destruct (Z.geb_spec (Z.of_nat (length selected)) n) as [Hn|Hn],
           (Z.geb_spec (Z.of_nat (length selected)) m) as [Hm|Hm];
    [done| |lia|].
  - destruct (List.find _ _) as [t|].
    + etrans; [|apply selectPerAgent_extends]. by apply prefix_app_r.
    + apply selectPerAgent_extends.
  - destruct (List.find _ _) as [t|]; apply IH.
Qed.

(** X9.  With a bound of at least 1, the parallel batch is empty exactly when
    there is no next task: whenever some task is eligible, both selection
    functions return work. *)
Theorem batch_empty_iff_no_next (state : ProjectState) (n : Z) :
  1 ≤ n →
  getParallelizableTasks state n = [] ↔ getNextTask state = None.
Proof.
  intros Hn. rewrite getNextTask_None_iff. unfold getParallelizableTasks.
  destruct (List.filter (isReady state) (tasks state)) as [|x l] eqn:Hf;
    [done|].
  split; [|done]. intros Hempty. exfalso.
  destruct (groupByAgent_head (x :: l)) as (a & ts & rest & Hg & Hts); [done|].
  rewrite Hg in Hempty. cbn [selectPerAgent] in Hempty.
  destruct (Z.geb_spec (Z.of_nat (length (@nil Task))) n) as [Hge|_];
    [cbn in Hge; lia|].
  destruct (Array_sort byPriority ts) as [|t sorted] eqn:Hsort.
  { by apply Array_sort_nil_inv in Hsort. }
  cbn in Hempty.
  pose proof (selectPerAgent_extends n rest [t]) as [k Hk].
  rewrite Hk in Hempty. done.
Qed.

(** X10.  Raising the bound only adds tasks at the end of the batch: the batch
    for a bound is a prefix of the batch for any larger bound. *)
Theorem batch_monotone (state : ProjectState) (n m : Z) :
  n ≤ m →
  getParallelizableTasks state n `prefix_of` getParallelizableTasks state m.
Proof. intros Hnm. by apply selectPerAgent_mono. Qed.

(** The sixteen agent types. *)
Lemma all_agents (a : AgentType) :
  a ∈ [Orchestrator; SpecWriter; Architect; TaskPlanner; FrontendDev;
       BackendDev; DatabaseExpert; ApiDesigner; DevopsEngineer;
       TestEngineer; CodeReviewer; SecurityAuditor; PerformanceAnalyst;
       BugFixer; Documentation; Refactorer].
Proof. destruct a; set_solver. Qed.

(** X11.  Whatever the bound, a batch holds at most one task per agent type,
    hence never more than 16 tasks. *)
Theorem batch_at_most_agents (state : ProjectState) (n : Z) :
  NoDup (t_agent <$> getParallelizableTasks state n)
  ∧ (length (getParallelizableTasks state n) ≤ 16)%nat.
Proof.
  unfold getParallelizableTasks.
  set (pending := List.filter (isReady state) (tasks state)).
  destruct (selectPerAgent_Picked n (groupByAgent pending) [])
    as (selected & -> & Hpicked).
  cbn [app].
  destruct (Picked_agents _ _ _ Hpicked (groupByAgent_wellFormed pending))
    as [Hnd _].
  split; [done|].
  rewrite <- (length_fmap t_agent).
  apply (submseteq_length _
           [Orchestrator; SpecWriter; Architect; TaskPlanner; FrontendDev;
            BackendDev; DatabaseExpert; ApiDesigner; DevopsEngineer;
            TestEngineer; CodeReviewer; SecurityAuditor; PerformanceAnalyst;
            BugFixer; Documentation; Refactorer]).
  apply NoDup_submseteq; [done|]. intros a _. apply all_agents.
Qed.

(** ** Completion and the other queries *)

Lemma countStatus_zero (st : TaskStatus) (all : list Task) :
  countStatus st all = 0 ↔ Forall (λ t, t_status t ≠ st) all.
Proof.
  unfold countStatus. induction all as [|t all IH]; cbn.
  - split; [constructor|done].
  - rewrite Forall_cons. destruct (decide (t_status t = st)) as [Heq|Hne].
    + rewrite (bool_decide_eq_true_2 _ Heq). cbn. split; [lia|tauto].
    + rewrite (bool_decide_eq_false_2 _ Hne). rewrite IH. tauto.
Qed.

(** X12.  A complete project has no work to hand out: there is no next task and
    every parallel batch is empty. *)
Theorem complete_has_no_work (state : ProjectState) :
  isComplete state = true →
  getNextTask state = None ∧ ∀ n, getParallelizableTasks state n = [].
Proof.
  unfold isComplete. intros [_ Hall]%andb_true_iff.
  rewrite forallb_forall in Hall.
  assert (Hf : List.filter (isReady state) (tasks state) = []).
  { destruct (List.filter (isReady state) (tasks state)) as [|x l] eqn:Hf;
      [done|].
    assert (Hin : In x (List.filter (isReady state) (tasks state))).
    { rewrite Hf. by left. }
    apply filter_In in Hin as [Hin Hready].
    apply andb_true_iff in Hready as [Hp%bool_decide_eq_true _].
    specialize (Hall x Hin). rewrite Hp in Hall. done. }
  split; [by apply getNextTask_None_iff|].
  intros n. unfold getParallelizableTasks. by rewrite Hf.
Qed.

(** X13.  On a state whose progress record is up to date, [isComplete] can be
    read off the counters: the project is complete exactly when it has a
    task and the completed and skipped counts add up to the total. *)
Theorem isComplete_progress (state : ProjectState) :
  progressConsistent state →
  isComplete state = true ↔
    0 < pr_total (progress state)
    ∧ pr_completed (progress state) + pr_skipped (progress state)
      = pr_total (progress state).
Proof.
  intros (Htot & Hc & Hi & Hb & Hs & _ & _).
  pose proof (countStatus_partition (tasks state)) as Hpart.
  pose proof (countStatus_nonneg Pending (tasks state)).
  pose proof (countStatus_nonneg InProgress (tasks state)).
  pose proof (countStatus_nonneg Blocked (tasks state)).
  unfold isComplete. rewrite andb_true_iff, forallb_forall, Z.gtb_lt.
  rewrite Htot, Hc, Hs. split.
  - intros [Hlen Hall]. split; [done|].
    assert (Hz : ∀ st, st ≠ Completed → st ≠ Skipped →
                       countStatus st (tasks state) = 0).
    { intros st Hnc Hns. apply countStatus_zero, Forall_forall.
      intros t Ht%list_elem_of_In Heq. specialize (Hall t Ht).
      rewrite Heq in Hall.
      apply orb_true_iff in Hall as [?%bool_decide_eq_true|?%bool_decide_eq_true];
        done. }
    rewrite (Hz Pending), (Hz InProgress), (Hz Blocked) in Hpart by done. lia.
  - intros [Hlen Hsum]. split; [done|]. intros t Ht%list_elem_of_In.
    assert (Hp : countStatus Pending (tasks state) = 0) by lia.
    assert (Hip : countStatus InProgress (tasks state) = 0) by lia.
    assert (Hbl : countStatus Blocked (tasks state) = 0) by lia.
    rewrite countStatus_zero, Forall_forall in Hp, Hip, Hbl.
    specialize (Hp t Ht). specialize (Hip t Ht). specialize (Hbl t Ht).
    apply orb_true_iff. destruct (t_status t); try done.
    + left. by apply bool_decide_eq_true.
    + right. by apply bool_decide_eq_true.
Qed.

(** ** Retry *)

(** X14.  A failure below [maxAttempts] puts the task back in the pool: when its
    dependencies were met and it does not depend on itself, the failed
    task passes the selection filter again and there is a next task. *)
Theorem failTask_requeues (percent : Z → Z → Z) (tB tH : Timestamp)
    (state : ProjectState) (taskId error : string) (i : nat) (task : Task) :
  findTask (tasks state) taskId = Some (i, task) →
  t_attempts task < t_maxAttempts task →
  areDependenciesMet state task = true →
  taskId ∉ t_dependencies task →
  ∃ task' state',
    failTask percent tB tH state taskId error = (Some task', state')
    ∧ tasks state' !! i = Some task'
    ∧ t_status task' = Pending
    ∧ isReady state' task' = true
    ∧ getNextTask state' ≠ None.
Proof.
  intros Hfind Hlt Hdeps Hself.
  pose proof Hfind as (Hi & Hid & _)%findTask_Some.
  destruct (failTask_found percent tB tH state taskId error i task Hfind)
    as (task' & state' & Hrun & Htasks & Hsame & _ & _ & Hretry & _).
  destruct (Hretry Hlt) as [Hpending _].
  pose proof (f_equal t_dependencies Hsame) as Hd.
  pose proof (f_equal t_id Hsame) as Hid'. cbn in Hd, Hid'.
  assert (Hlen : (i < length (tasks state))%nat) by by eapply lookup_lt_Some.
  assert (Hready : isReady state' task' = true).
  { unfold isReady, areDependenciesMet in *. apply andb_true_iff.
    split; [by apply bool_decide_eq_true|].
    rewrite Htasks, Hd.
    rewrite (dependenciesCompleted_insert _ i task task'); [done|done|done|].
    by rewrite Hid. }
  assert (Hat : tasks state' !! i = Some task').
  { rewrite Htasks. by apply list_lookup_insert_eq. }
  exists task', state'. split_and!; [done..|].
  rewrite getNextTask_None_iff. intros Hnil.
  assert (Hin : In task' (List.filter (isReady state') (tasks state'))).
  { apply filter_In. split; [|done].
    apply list_elem_of_In. by eapply list_elem_of_lookup_2. }
  by rewrite Hnil in Hin.
Qed.

(** ** Phase entries along transitions *)

(** What a transition does to the entry of any phase. *)
Lemma transitionPhase_lookup (now tH : Timestamp) (state : ProjectState)
    (target p : Phase) :
  phases (transitionPhase now tH state target) !! p
  = entryAfter now (phase state) target p <$> phases state !! p.
Proof.
  unfold transitionPhase, entryAfter. cbn.
  destruct (decide (target = phase state)) as [Htc|Htc];
    destruct (decide (p = target)) as [Hpt|Hpt];
    destruct (decide (p = phase state)) as [Hpc|Hpc];
    try congruence; subst;
    destruct (phases state !! phase state) as [pc|] eqn:Hcur; cbn;
    rewrite ?lookup_insert_eq, ?lookup_insert_ne by done; cbn;
    try (destruct (phases state !! target) as [pt|] eqn:Htgt; cbn);
    rewrite ?lookup_insert_eq, ?lookup_insert_ne by done;
    rewrite ?Hcur, ?Htgt; try done;
    cbn; rewrite ?lookup_insert_eq; try done;
    by destruct (phases state !! p).
Qed.

Lemma transitionPhase_total (now tH : Timestamp) (state : ProjectState)
    (target : Phase) :
  phasesTotal state → phasesTotal (transitionPhase now tH state target).
Proof.
  intros Htot p. rewrite transitionPhase_lookup.
  destruct (Htot p) as [ps ->]. by eexists.
Qed.

Lemma transitionPhase_phase (now tH : Timestamp) (state : ProjectState)
    (target : Phase) :
  phase (transitionPhase now tH state target) = target.
Proof.
  unfold transitionPhase. cbn.
  destruct (phases state !! phase state); cbn; by repeat case_match.
Qed.

Lemma transitionPhase_history (now tH : Timestamp) (state : ProjectState)
    (target : Phase) :
  history (transitionPhase now tH state target)
  = history state ++ [transitionEntry tH (phase state) target].
Proof.
  unfold transitionPhase. cbn.
  destruct (phases state !! phase state); cbn; by repeat case_match.
Qed.

(** X15.  A walk through phases that are pairwise different and different from
    the current one, in a state with an entry for every phase: the last
    target is the current phase and in progress, every phase left on the
    way (the starting phase included) is complete, the entries of the
    phases not visited are untouched, and the history grew by one entry
    per transition. *)
Theorem walkPhases_spec (steps : list (Timestamp * Timestamp * Phase))
    (state : ProjectState) :
  phasesTotal state →
  NoDup (phase state :: steps.*2) →
  let final := walkPhases steps state in
  phase final = default (phase state) (last steps.*2)
  ∧ phasesTotal final
  ∧ (∀ q, q ∈ phase state :: steps.*2 → q ≠ phase final →
          ps_status <$> phases final !! q = Some PhaseComplete)
  ∧ (steps ≠ [] →
     ps_status <$> phases final !! phase final = Some PhaseInProgress)
  ∧ (∀ q, q ∉ phase state :: steps.*2 →
          phases final !! q = phases state !! q)
  ∧ length (history final) = (length (history state) + length steps)%nat.
Proof.
  revert state. induction steps as [|[[now tH] p] rest IH];
    intros state Htot Hnd; cbn.
  - split_and!; [done|done| |done|done|lia].
    intros q ->%list_elem_of_singleton. done.
  - set (s1 := transitionPhase now tH state p).
    assert (Hp1 : phase s1 = p) by apply transitionPhase_phase.
    assert (Htot1 : phasesTotal s1) by by apply transitionPhase_total.
    apply NoDup_cons in Hnd as [Hnotin Hnd]. cbn in Hnotin.
    assert (Hne : p ≠ phase state).
    { intros ->. apply Hnotin. by apply elem_of_cons; left. }
    assert (Hnd1 : NoDup (phase s1 :: rest.*2)) by by rewrite Hp1.
    destruct (IH s1 Htot1 Hnd1) as (Hphase & Htotf & Hdone & Hlive & Hframe & Hlen).
    fold (walkPhases rest s1) in *. rewrite Hp1 in *.
    assert (Hstart : ps_status <$> phases s1 !! phase state = Some PhaseComplete).
    { unfold s1. rewrite transitionPhase_lookup.
      destruct (Htot (phase state)) as [ps ->]. cbn. unfold entryAfter.
      by rewrite decide_False, decide_True by done. }
    split_and!.
    + rewrite Hphase, last_cons. by destruct (last rest.*2).
    + done.
    + intros q [->|Hq]%elem_of_cons Hqf.
      * by rewrite Hframe.
      * by apply Hdone.
    + intros _. destruct rest as [|step rest'].
      * unfold walkPhases. cbn [foldl]. rewrite Hp1. unfold s1.
        rewrite transitionPhase_lookup.
        destruct (Htot p) as [ps ->]. cbn. unfold entryAfter.
        by rewrite decide_True.
      * by apply Hlive.
    + intros q Hq. rewrite Hframe.
      * unfold s1. rewrite transitionPhase_lookup.
        destruct (phases state !! q) as [ps|]; [|done]. cbn.
        unfold entryAfter. rewrite !decide_False; [done| |].
        -- intros ->. apply Hq. by apply elem_of_cons; left.
        -- intros ->. apply Hq. apply elem_of_cons; right.
           by apply elem_of_cons; left.
      * intros Hin. apply Hq. by apply elem_of_cons; right.
    + rewrite Hlen. unfold s1. rewrite transitionPhase_history, length_app.
      cbn. lia.
Qed.

(** ** Sequential ids *)

Lemma list_ascii_of_string_append (a b : string) :
  list_ascii_of_string (String.append a b)
  = list_ascii_of_string a ++ list_ascii_of_string b.
Proof. induction a as [|c a IH]; [done|]. simpl. f_equal. exact IH. Qed.

Lemma append_inj_l (a b s : string) :
  String.append a s = String.append b s → a = b.
Proof.
  intros Heq. apply (f_equal list_ascii_of_string) in Heq.
  rewrite !list_ascii_of_string_append in Heq.
  apply app_inv_tail in Heq.
  rewrite <- (string_of_list_ascii_of_string a),
          <- (string_of_list_ascii_of_string b).
  by rewrite Heq.
Qed.

Lemma checkpointFile_inj (a b : string) :
  checkpointFile a = checkpointFile b → a = b.
Proof. apply append_inj_l. Qed.

Lemma decimalValue_zero_digit (t : string) :
  decimalValue (String "0"%char t) = decimalValue t.
Proof.
  unfold decimalValue.
  change (NilEmpty.uint_of_string (String "0"%char t))
    with (uint_of_char "0"%char (NilEmpty.uint_of_string t)).
  by destruct (NilEmpty.uint_of_string t).
Qed.

Lemma decimalValue_zeros (k : nat) (s : string) :
  decimalValue (String.append (zeros k) s) = decimalValue s.
Proof.
  induction k as [|k IH]; [done|].
  change (String.append (zeros (S k)) s)
    with (String "0"%char (String.append (zeros k) s)).
  by rewrite decimalValue_zero_digit.
Qed.

Lemma decimalValue_String_of_nat (n : nat) :
  decimalValue (String_of_nat n) = Some n.
Proof.
  unfold decimalValue, String_of_nat.
  pose proof (DecimalNat.Unsigned.of_to n) as Hn.
  destruct (Nat.to_uint n) as [|d|d|d|d|d|d|d|d|d|d] eqn:Hd.
  { cbn in Hn. by subst n. }
  all: unfold NilZero.string_of_uint; rewrite NilEmpty.usu; cbn [fmap option_fmap option_map];
    by rewrite Hn.
Qed.

(** Padding with zeros does not change the number read back, so the
    padded numbering is one to one. *)
Lemma padded_number_inj (w n m : nat) :
  padStart0 w (String_of_nat n) = padStart0 w (String_of_nat m) → n = m.
Proof.
  intros Heq. apply (f_equal decimalValue) in Heq. unfold padStart0 in Heq.
  rewrite !decimalValue_zeros, !decimalValue_String_of_nat in Heq.
  by injection Heq.
Qed.

Lemma checkpointIdOf_inj (n m : nat) :
  checkpointIdOf n = checkpointIdOf m → n = m.
Proof.
  unfold checkpointIdOf. intros Heq. cbn in Heq. injection Heq as Heq.
  by apply padded_number_inj in Heq.
Qed.

Lemma decisionIdOf_inj (n m : nat) :
  decisionIdOf n = decisionIdOf m → n = m.
Proof.
  unfold decisionIdOf. intros Heq. cbn in Heq. injection Heq as Heq.
  by apply padded_number_inj in Heq.
Qed.

(** ** Checkpoints on disk *)

Lemma createCheckpoint_id (tC tH : Timestamp) (disk : Disk)
    (state : ProjectState) (gitCommit description : option string) :
  cp_id (createCheckpoint tC tH disk state gitCommit description).1.1
  = checkpointIdOf (length (checkpoints state) + 1).
Proof. reflexivity. Qed.


(** X16.  A checkpoint taken from a state that lists a different number of
    checkpoints leaves the earlier snapshot in place: restoring the earlier
    id afterwards still gives the tasks and the phase captured first.  In
    particular the next checkpoint of the live state does not disturb the
    previous one. *)
Theorem earlier_snapshot_survives (tC tH tC' tH' tR tS : Timestamp)
    (disk : Disk) (state state' : ProjectState) (g d g' d' : option string) :
  length (checkpoints state) ≠ length (checkpoints state') →
  let first := createCheckpoint tC tH disk state g d in
  let second := createCheckpoint tC' tH' first.2 state' g' d' in
  checkpointFiles second.2 !! checkpointFile (cp_id first.1.1)
  = checkpointFiles first.2 !! checkpointFile (cp_id first.1.1)
  ∧ ∃ restored disk',
      restoreCheckpoint tR tS second.2 (cp_id first.1.1)
      = inr (restored, disk')
      ∧ tasks restored = tasks state
      ∧ phase restored = phase state
      ∧ checkpoints restored = checkpoints state ++ [first.1.1].
Proof.
  intros Hne first second.
  assert (Hfile : checkpointFile (cp_id second.1.1)
                  ≠ checkpointFile (cp_id first.1.1)).
  { intros Heq%checkpointFile_inj. subst first second.
    rewrite !createCheckpoint_id in Heq. apply checkpointIdOf_inj in Heq.
    lia. }
  assert (Hkeep : checkpointFiles second.2 !! checkpointFile (cp_id first.1.1)
                  = checkpointFiles first.2 !! checkpointFile (cp_id first.1.1)).
  { subst second. cbn [createCheckpoint snd checkpointFiles].
    by rewrite lookup_insert_ne. }
  split; [done|].
  unfold restoreCheckpoint. rewrite Hkeep. subst first.
  cbn [createCheckpoint snd fst checkpointFiles]. rewrite lookup_insert_eq.
  by eexists _, _.
Qed.

(** X17.  A checkpoint taken from a state that lists as many checkpoints as an
    earlier checkpointed state (as happens after a restore) gets the same
    id and replaces the snapshot: restoring the id gives the later state. *)
Theorem same_count_overwrites (tC tH tC' tH' tR tS : Timestamp)
    (disk : Disk) (state state' : ProjectState) (g d g' d' : option string) :
  length (checkpoints state) = length (checkpoints state') →
  let first := createCheckpoint tC tH disk state g d in
  let second := createCheckpoint tC' tH' first.2 state' g' d' in
  cp_id second.1.1 = cp_id first.1.1
  ∧ ∃ restored disk',
      restoreCheckpoint tR tS second.2 (cp_id first.1.1)
      = inr (restored, disk')
      ∧ tasks restored = tasks state'
      ∧ phase restored = phase state'
      ∧ checkpoints restored = checkpoints state' ++ [second.1.1].
Proof.
  intros Hlen first second.
  assert (Hid : cp_id second.1.1 = cp_id first.1.1).
  { subst first second. rewrite !createCheckpoint_id. by rewrite Hlen. }
  split; [done|].
  unfold restoreCheckpoint. rewrite <- Hid. subst second.
  cbn [createCheckpoint snd fst checkpointFiles]. rewrite lookup_insert_eq.
  by eexists _, _.
Qed.

(** X18.  Right after a checkpoint the threshold test is negative, for every
    configuration whose frequency is not negative: the count since the
    last checkpoint is back to zero. *)
Theorem checkpoint_resets_threshold (tC tH : Timestamp) (disk : Disk)
    (state : ProjectState) (g d : option string) :
  (∀ c, config state = Some c → 0 ≤ cfg_checkpointFrequency c) →
  shouldCheckpoint (createCheckpoint tC tH disk state g d).1.2 = false.
Proof.
  intros Hfreq. unfold shouldCheckpoint. cbn. rewrite last_snoc. cbn.
  rewrite Z.geb_leb. apply Z.leb_gt. unfold number_or.
  destruct (config state) as [c|]; cbn; [|lia].
  specialize (Hfreq c eq_refl).
  destruct (Z.eqb_spec (cfg_checkpointFrequency c) 0); lia.
Qed.

(** ** The state file *)

Lemma JSON_details_clean (d : list (string * JValue)) :
  Forall (λ kv, is_undefined kv.2 = false) d → JSON_details d = d.
Proof.
  unfold JSON_details. induction 1 as [|kv d Hkv _ IH]; [done|].
  cbn. by rewrite Hkv, IH.
Qed.

Lemma JSON_details_idem (d : list (string * JValue)) :
  JSON_details (JSON_details d) = JSON_details d.
Proof.
  apply JSON_details_clean, Forall_forall. intros kv Hin.
  apply list_elem_of_In, filter_In in Hin as [_ Hkv].
  by apply negb_true_iff in Hkv.
Qed.

Lemma JSON_entries_idem (hs : list HistoryEntry) :
  JSON_entry <$> (JSON_entry <$> hs) = JSON_entry <$> hs.
Proof.
  induction hs as [|h hs IH]; [done|]. cbn. rewrite IH. f_equal.
  unfold JSON_entry. cbn. f_equal.
  destruct (h_details h) as [d|]; [|done]. cbn. by rewrite JSON_details_idem.
Qed.

Lemma JSON_roundtrip_idem (state : ProjectState) :
  JSON_roundtrip (JSON_roundtrip state) = JSON_roundtrip state.
Proof. unfold JSON_roundtrip. cbn. by rewrite JSON_entries_idem. Qed.




(** ** Decisions *)

(** X20.  [addDecision] appends the record and one [decision_made] entry and
    changes nothing else.  The id is numbered by the count of decisions:
    two calls give the same id exactly when their states hold the same
    number of decisions, so decisions recorded one after the other have
    different ids. *)
Theorem addDecision_spec (tD tH : Timestamp) (state : ProjectState)
    (topic decision rationale : string) (decidedBy : AgentType)
    (alternatives : option (list string)) :
  let result :=
    addDecision tD tH state topic decision rationale decidedBy alternatives in
  result.1
  = mkDecision (decisionIdOf (length (decisions state) + 1)) topic decision
      rationale alternatives tD decidedBy
  ∧ decisions result.2 = decisions state ++ [result.1]
  ∧ history result.2 = history state ++ [decisionEntry tH result.1]
  ∧ set_history (history state) (set_decisions (decisions state) result.2)
    = state
  ∧ (∀ tD' tH' state' topic' decision' rationale' decidedBy' alternatives',
       d_id (addDecision tD' tH' state' topic' decision' rationale'
               decidedBy' alternatives').1
       = d_id result.1
       ↔ length (decisions state') = length (decisions state))
  ∧ (∀ tD' tH' topic' decision' rationale' decidedBy' alternatives',
       d_id (addDecision tD' tH' result.2 topic' decision' rationale'
               decidedBy' alternatives').1
       ≠ d_id result.1).
Proof.
  cbn. split_and!; try done.
  - by destruct state.
  - intros. fold (decisionIdOf (length (decisions state') + 1)).
    fold (decisionIdOf (length (decisions state) + 1)). split.
    + intros Heq%decisionIdOf_inj. lia.
    + by intros ->.
  - intros. fold (decisionIdOf (length (decisions state ++ [
      mkDecision (decisionIdOf (length (decisions state) + 1)) topic decision
        rationale alternatives tD decidedBy]) + 1)).
    fold (decisionIdOf (length (decisions state) + 1)).
    intros Heq%decisionIdOf_inj. rewrite length_app in Heq. cbn in Heq. lia.
Qed.

(** ** Invariants of the states a driver can reach *)

Section Reachable.

Variable percent : Z → Z → Z.

Lemma applyMutation_holds (P : ProjectState → Prop) (w : ProjectState * Disk)
    (m : Mutation) :
  StateInvariant percent P →
  worldHolds P w → worldHolds P (applyMutation percent w m).
Proof.
  intros HP (Hs & Hfile & Hcps). destruct w as [s disk]. cbn in *.
  destruct m as [op|now tH target|tD tH topic decision rationale by_ alt
                |tC tH g d|tH tS checkpointId|now|];
    unfold worldHolds; cbn.
  - split_and!; [by apply (inv_op _ _ HP)|done|done].
  - split_and!; [by apply (inv_transition _ _ HP)|done|done].
  - split_and!; [by apply (inv_decision _ _ HP)|done|done].
  - pose proof (inv_checkpoint _ _ HP tC s g d Hs) as Hpush.
    split_and!; [by apply (inv_history _ _ HP)|done|].
    intros file doc. rewrite lookup_insert.
    destruct (decide _) as [_|_]; [|by apply Hcps].
    intros [= <-]. by apply (inv_json _ _ HP).
  - unfold restoreCheckpoint.
    destruct (checkpointFiles disk !! checkpointFile checkpointId)
      as [snapshot|] eqn:Hsnap; cbn; [|done].
    assert (P (set_project (set_updated tS (project snapshot))
                 (addHistory tH snapshot "checkpoint_restored" None None
                    (Some [("checkpointId", JStr checkpointId)])))) as Hr.
    { apply (inv_updated _ _ HP tS
               (addHistory tH snapshot "checkpoint_restored" None None
                  (Some [("checkpointId", JStr checkpointId)]))).
      apply (inv_history _ _ HP). by eapply Hcps. }
    split_and!; [done| |done].
    intros doc [= <-]. by apply (inv_json _ _ HP) in Hr.
  - assert (P (set_project (set_updated now (project s)) s)) as Hr
      by by apply (inv_updated _ _ HP).
    split_and!; [done| |done].
    intros doc [= <-]. by apply (inv_json _ _ HP) in Hr.
  - unfold load. destruct (stateFile disk) as [doc|] eqn:Hdoc in |- *; cbn;
      [|by split_and!].
    split_and!; [by apply Hfile|done|done].
Qed.

Lemma runMutations_holds (P : ProjectState → Prop) (ms : list Mutation)
    (w : ProjectState * Disk) :
  StateInvariant percent P →
  worldHolds P w → worldHolds P (runMutations percent ms w).
Proof.
  intros HP. revert w. induction ms as [|m ms IH]; intros w Hw; [done|].
  cbn. apply IH. by apply applyMutation_holds.
Qed.

Lemma freshWorld_holds (P : ProjectState → Prop) uuid now tSave name
    description slug :
  StateInvariant percent P →
  P (freshWorld uuid now tSave name description slug).1 →
  worldHolds P (freshWorld uuid now tSave name description slug).
Proof.
  intros HP Hinit. split_and!; [done| |done].
  intros doc [= <-]. by apply (inv_json _ _ HP) in Hinit.
Qed.

End Reachable.


(** ** What the operations leave alone *)

Lemma applyOp_frame (percent : Z → Z → Z) (state : ProjectState)
    (op : LifecycleOp) :
  phase (applyOp percent state op) = phase state
  ∧ phases (applyOp percent state op) = phases state
  ∧ decisions (applyOp percent state op) = decisions state
  ∧ checkpoints (applyOp percent state op) = checkpoints state.
Proof.
  destruct op as [now tH taskId|now tH taskId|tB tH taskId error|newTasks];
    cbn; unfold startTask, completeTask, failTask, addTasks;
    try destruct (findTask (tasks state) taskId) as [[i task]|]; cbn;
    try done.
  by destruct (t_attempts task >=? t_maxAttempts task).
Qed.

Lemma transitionPhase_frame (now tH : Timestamp) (state : ProjectState)
    (target : Phase) :
  tasks (transitionPhase now tH state target) = tasks state
  ∧ progress (transitionPhase now tH state target) = progress state
  ∧ currentTasks (transitionPhase now tH state target) = currentTasks state
  ∧ blockers (transitionPhase now tH state target) = blockers state
  ∧ decisions (transitionPhase now tH state target) = decisions state
  ∧ checkpoints (transitionPhase now tH state target) = checkpoints state.
Proof.
  unfold transitionPhase. cbn.
  destruct (phases state !! phase state); cbn; by repeat case_match.
Qed.

Lemma set_progress_id (state : ProjectState) :
  set_progress (progress state) state = state.
Proof. by destruct state. Qed.

Lemma updateProgress_fixed (percent : Z → Z → Z) (s1 s2 : ProjectState) :
  tasks s1 = tasks s2 → progress s1 = progress s2 →
  updateProgress percent s1 = s1 → updateProgress percent s2 = s2.
Proof.
  intros Ht Hp H1. apply (f_equal progress) in H1.
  unfold updateProgress in *. cbn in H1. rewrite <- Ht, H1, Hp.
  apply set_progress_id.
Qed.


(** ** Invariants of the manager *)

Lemma worldHolds_weaken (P Q : ProjectState → Prop) (w : ProjectState * Disk) :
  (∀ s, P s → Q s) → worldHolds P w → worldHolds Q w.
Proof.
  intros HPQ (Hs & Hfile & Hcps).
  split_and!; [by apply HPQ|intros doc ?; by apply HPQ, Hfile|].
  intros file doc ?. by eapply HPQ, Hcps.
Qed.

Lemma progress_StateInvariant (percent : Z → Z → Z) :
  StateInvariant percent (λ s, updateProgress percent s = s).
Proof.
  split.
  - intros s op Hs.
    destruct (applyOp_recomputes percent s op) as [->|(mid & Ht & Hp)];
      [done|].
    by apply (updateProgress_fixed percent (updateProgress percent mid)).
  - intros now tH s target Hs.
    destruct (transitionPhase_frame now tH s target) as (Ht & Hp & _).
    by apply (updateProgress_fixed percent s).
  - intros. by apply (updateProgress_fixed percent s).
  - intros. by apply (updateProgress_fixed percent s).
  - intros. by apply (updateProgress_fixed percent s).
  - intros. by apply (updateProgress_fixed percent s).
  - intros. by apply (updateProgress_fixed percent s).
Qed.

Lemma phases_StateInvariant (percent : Z → Z → Z) :
  StateInvariant percent phasesCoherent.
Proof.
  split; try done.
  - intros s op Hs p. destruct (applyOp_frame percent s op) as (-> & -> & _).
    apply Hs.
  - intros now tH s target Hs p.
    rewrite transitionPhase_lookup, transitionPhase_phase.
    destruct (Hs p) as (ps & -> & Hcur & Hstart & Hdone).
    eexists. split; [done|]. unfold entryAfter.
    destruct (decide (p = target)) as [->|Hpt]; cbn; [by split_and!|].
    destruct (decide (p = phase s)) as [->|Hpc]; cbn; [by split_and!|].
    split_and!; [|done|done].
    split; [|done]. intros Hin. by apply Hcur in Hin.
Qed.


Lemma applyOp_resolves (percent : Z → Z → Z) (state : ProjectState)
    (op : LifecycleOp) (d : string) :
  is_Some (findTask (tasks state) d) →
  is_Some (findTask (tasks (applyOp percent state op)) d).
Proof.
  rewrite !findTask_is_Some_ids.
  destruct (applyOp_tasks percent state op)
    as [->|[(taskId & i & t & t' & _ & Hfind & Hdef & _ & ->)
           |(newTasks & _ & ->)]]; [done| |].
  - apply findTask_Some in Hfind as (Hi & _).
    destruct Hdef as (Hid & _). by rewrite (insert_same_ids _ _ t).
  - rewrite fmap_app. intros Hin. apply elem_of_app. by left.
Qed.

Lemma Forall_List_filter {A} (P : A → Prop) (f : A → bool) (l : list A) :
  Forall P l → Forall P (List.filter f l).
Proof.
  induction 1 as [|x l Hx Hl IH]; cbn; [done|].
  destruct (f x); [by constructor|done].
Qed.

Lemma references_StateInvariant (percent : Z → Z → Z) :
  StateInvariant percent referencesResolve.
Proof.
  split; try done.
  - intros s op (Hct & Hbl).
    assert (Forall (λ ct, is_Some (findTask (tasks (applyOp percent s op))
                                     (ct_id ct))) (currentTasks s)) as Hct'.
    { eapply Forall_impl; [exact Hct|]. intros ct. apply applyOp_resolves. }
    assert (Forall (λ b, is_Some (findTask (tasks (applyOp percent s op))
                                     (b_taskId b))) (blockers s)) as Hbl'.
    { eapply Forall_impl; [exact Hbl|]. intros b. apply applyOp_resolves. }
    assert (∀ taskId, opTarget op = Some taskId →
                      is_Some (findTask (tasks s) taskId) →
                      is_Some (findTask (tasks (applyOp percent s op)) taskId))
      as Hnew by (intros; by apply applyOp_resolves).
    clear Hct Hbl. unfold referencesResolve.
    destruct op as [now tH taskId|now tH taskId|tB tH taskId error|newTasks];
      cbn in *; unfold startTask, completeTask, failTask, addTasks in *;
      try (destruct (findTask (tasks s) taskId) as [[i task]|] eqn:Hfind;
           [|done]); cbn in *.
    + split; [|done]. apply Forall_app. split; [done|].
      apply Forall_singleton. cbn. by apply Hnew.
    + split; [|done]. by apply Forall_List_filter.
    + destruct (t_attempts task >=? t_maxAttempts task); cbn in *.
      * split; [by apply Forall_List_filter|].
        apply Forall_app. split; [done|].
        apply Forall_singleton. cbn. by apply Hnew.
      * split; [|done]. by apply Forall_List_filter.
    + done.
  - intros now tH s target (Hct & Hbl).
    destruct (transitionPhase_frame now tH s target) as (Ht & _ & Hc & Hb & _).
    unfold referencesResolve. by rewrite Ht, Hc, Hb.
Qed.

Lemma ids_StateInvariant (percent : Z → Z → Z) :
  StateInvariant percent sequentialIds.
Proof.
  split; try done.
  - intros s op Hs. unfold sequentialIds.
    by destruct (applyOp_frame percent s op) as (_ & _ & -> & ->).
  - intros now tH s target Hs. unfold sequentialIds.
    by destruct (transitionPhase_frame now tH s target)
      as (_ & _ & _ & _ & -> & ->).
  - intros tD tH s topic decision rationale by_ alt (Hd & Hc).
    split; [|done]. cbn.
    rewrite fmap_app, length_app, seq_app, fmap_app, Hd. cbn.
    by rewrite Nat.add_comm.
  - intros tC s g d (Hd & Hc).
    split; [done|]. cbn.
    rewrite fmap_app, length_app, seq_app, fmap_app, Hc. cbn.
    by rewrite Nat.add_comm.
Qed.


(** ** Snapshots on disk *)

Lemma checkpointsStored_mono (disk disk' : Disk) (state state' : ProjectState) :
  (∀ file, is_Some (checkpointFiles disk !! file) →
           is_Some (checkpointFiles disk' !! file)) →
  checkpoints state' = checkpoints state →
  checkpointsStored disk state → checkpointsStored disk' state'.
Proof.
  intros Hfiles Hcps. unfold checkpointsStored. rewrite Hcps.
  intros H. eapply Forall_impl; [exact H|]. intros cp. apply Hfiles.
Qed.

Lemma applyMutation_snapshots (percent : Z → Z → Z) (w : ProjectState * Disk)
    (m : Mutation) :
  snapshotsKept w → snapshotsKept (applyMutation percent w m).
Proof.
  intros ((Hs & Hfile & Hcps) & Hnamed). destruct w as [s disk]. cbn in *.
  destruct m as [op|now tH target|tD tH topic decision rationale by_ alt
                |tC tH g d|tH tS checkpointId|now|];
    unfold snapshotsKept, worldHolds; cbn.
  - split_and!; try done.
    eapply checkpointsStored_mono; [done| |exact Hs].
    by destruct (applyOp_frame percent s op) as (_ & _ & _ & ->).
  - split_and!; try done.
    eapply checkpointsStored_mono; [done| |exact Hs].
    by destruct (transitionPhase_frame now tH s target)
      as (_ & _ & _ & _ & _ & ->).
  - by split_and!.
  - assert (∀ file, is_Some (checkpointFiles disk !! file) →
              is_Some
                (<[checkpointFile
                     (String.append "CP-"
                        (padStart0 3
                           (String_of_nat (length (checkpoints s) + 1)))) :=
                     JSON_roundtrip
                       (set_checkpoints
                          (checkpoints s
                             ++ [mkCheckpoint
                                   (String.append "CP-"
                                      (padStart0 3
                                         (String_of_nat
                                            (length (checkpoints s) + 1))))
                                   tC (phase s) (pr_completed (progress s))
                                   g d]) s)]>
                   (checkpointFiles disk) !! file)) as Hgrow.
    { intros file [doc Hdoc]. rewrite lookup_insert.
      destruct (decide _); by eexists. }
    assert (checkpointsStored
              (mkDisk (stateFile disk)
                 (<[checkpointFile
                      (String.append "CP-"
                         (padStart0 3
                            (String_of_nat (length (checkpoints s) + 1)))) :=
                      JSON_roundtrip
                        (set_checkpoints
                           (checkpoints s
                              ++ [mkCheckpoint
                                    (String.append "CP-"
                                       (padStart0 3
                                          (String_of_nat
                                             (length (checkpoints s) + 1))))
                                    tC (phase s) (pr_completed (progress s))
                                    g d]) s)]>
                    (checkpointFiles disk)))
              (set_checkpoints
                 (checkpoints s
                    ++ [mkCheckpoint
                          (String.append "CP-"
                             (padStart0 3
                                (String_of_nat (length (checkpoints s) + 1))))
                          tC (phase s) (pr_completed (progress s)) g d]) s))
      as Hnew.
    { unfold checkpointsStored. cbn. apply Forall_app. split.
      - eapply Forall_impl; [exact Hs|]. intros cp. apply Hgrow.
      - apply Forall_singleton. cbn. rewrite lookup_insert_eq. by eexists. }
    split_and!.
    + exact Hnew.
    + intros doc Hdoc. eapply checkpointsStored_mono; [exact Hgrow|done|].
      by apply Hfile.
    + intros file doc. rewrite lookup_insert.
      destruct (decide _) as [_|_].
      * intros [= <-]. exact Hnew.
      * intros Hdoc. eapply checkpointsStored_mono; [exact Hgrow|done|].
        by eapply Hcps.
    + unfold snapshotsNamed. cbn. intros file doc. rewrite lookup_insert.
      destruct (decide _) as [<-|_].
      * intros [= <-]. eexists. cbn. by rewrite last_snoc.
      * apply Hnamed.
  - unfold restoreCheckpoint.
    destruct (checkpointFiles disk !! checkpointFile checkpointId)
      as [snapshot|] eqn:Hsnap in |- *; cbn; [|by split_and!].
    pose proof (Hcps _ _ Hsnap) as Hstored.
    split_and!; try done. by intros doc [= <-].
  - split_and!; try done. by intros doc [= <-].
  - unfold load. destruct (stateFile disk) as [doc|] eqn:Hdoc in |- *; cbn;
      [|by split_and!].
    split_and!; try done. by apply Hfile.
Qed.

Lemma runMutations_snapshots (percent : Z → Z → Z) (ms : list Mutation)
    (w : ProjectState * Disk) :
  snapshotsKept w → snapshotsKept (runMutations percent ms w).
Proof.
  revert w. induction ms as [|m ms IH]; intros w Hw; [done|].
  cbn. apply IH. by apply applyMutation_snapshots.
Qed.

Lemma freshWorld_snapshots uuid now tSave name description slug :
  snapshotsKept (freshWorld uuid now tSave name description slug).
Proof.
  split; [split_and!|]; cbn.
  - by apply Forall_nil.
  - intros doc [= <-]. by apply Forall_nil.
  - intros file doc Hdoc. cbn in Hdoc. by rewrite lookup_empty in Hdoc.
  - intros file doc Hdoc. cbn in Hdoc. by rewrite lookup_empty in Hdoc.
Qed.


(** ** Forward calls keep what was recorded *)

Lemma extends_refl {A} (l : list A) : extends l l.
Proof. exists []. by rewrite app_nil_r. Qed.

Lemma extends_trans {A} (a b c : list A) :
  extends a b → extends b c → extends a c.
Proof. intros [r ->] [r' ->]. exists (r ++ r'). by rewrite app_assoc. Qed.

Lemma extends_snoc {A} (l : list A) (x : A) : extends l (l ++ [x]).
Proof. by exists [x]. Qed.

Lemma sameDefinition_refl (t : Task) : sameDefinition t t.
Proof. by unfold sameDefinition. Qed.

Lemma sameDefinition_trans (a b c : Task) :
  sameDefinition a b → sameDefinition b c → sameDefinition a c.
Proof. unfold sameDefinition. intros Hab Hbc. split_and!; by etrans; [apply Hbc|apply Hab]. Qed.

Lemma keepsRecords_refl (s : ProjectState) : keepsRecords s s.
Proof.
  split_and!; try apply extends_refl.
  intros i t Hi. exists t. split_and!; [done|apply sameDefinition_refl|lia].
Qed.

Lemma keepsRecords_trans (a b c : ProjectState) :
  keepsRecords a b → keepsRecords b c → keepsRecords a c.
Proof.
  intros (H1 & Ht & H2 & H3 & H4 & H5) (K1 & Kt & K2 & K3 & K4 & K5).
  split_and!; try by eapply extends_trans.
  intros i t Hi.
  destruct (Ht i t Hi) as (t' & Hi' & Hdef & Hatt).
  destruct (Kt i t' Hi') as (t'' & Hi'' & Hdef' & Hatt').
  exists t''. split_and!; [done|by eapply sameDefinition_trans|lia].
Qed.

Lemma keepsRecords_same_tasks (s s' : ProjectState) :
  tasks s' = tasks s →
  extends (history s) (history s') →
  extends (blockers s) (blockers s') →
  extends (decisions s) (decisions s') →
  extends (checkpoints s) (checkpoints s') →
  keepsRecords s s'.
Proof.
  intros Ht Hh Hb Hd Hc. split_and!; try done.
  - rewrite Ht. apply extends_refl.
  - rewrite Ht. intros i t Hi. exists t.
    split_and!; [done|apply sameDefinition_refl|lia].
Qed.

Lemma applyOp_keeps (percent : Z → Z → Z) (s : ProjectState) (op : LifecycleOp) :
  keepsRecords s (applyOp percent s op).
Proof.
  destruct (applyOp_frame percent s op) as (_ & _ & Hd & Hc).
  split_and!; [| | | |rewrite Hd; apply extends_refl
              |rewrite Hc; apply extends_refl].
  - destruct (applyOp_tasks percent s op)
      as [->|[(taskId & i & t & t' & _ & Hfind & Hdef & _ & ->)
             |(newTasks & _ & ->)]]; [apply extends_refl| |].
    + apply findTask_Some in Hfind as (Hi & _). destruct Hdef as (Hid & _).
      rewrite (insert_same_ids _ _ t) by done. apply extends_refl.
    + rewrite fmap_app. by eexists.
  - intros j u Hj.
    destruct (applyOp_tasks percent s op)
      as [->|[(taskId & i & t & t' & _ & Hfind & Hdef & Hatt & ->)
             |(newTasks & _ & ->)]].
    + exists u. split_and!; [done|apply sameDefinition_refl|lia].
    + apply findTask_Some in Hfind as (Hi & _).
      destruct (decide (j = i)) as [->|Hne].
      * exists t'. rewrite list_lookup_insert_eq by by eapply lookup_lt_Some.
        rewrite Hi in Hj. injection Hj as <-. by split_and!.
      * exists u. rewrite list_lookup_insert_ne by done.
        split_and!; [done|apply sameDefinition_refl|lia].
    + exists u. split_and!; [|apply sameDefinition_refl|lia].
      by apply lookup_app_l_Some.
  - destruct op as [now tH taskId|now tH taskId|tB tH taskId error|newTasks];
      cbn; unfold startTask, completeTask, failTask, addTasks;
      try destruct (findTask (tasks s) taskId) as [[i task]|]; cbn;
      try apply extends_refl; try apply extends_snoc.
    destruct (t_attempts task >=? t_maxAttempts task); cbn;
      apply extends_snoc.
  - destruct op as [now tH taskId|now tH taskId|tB tH taskId error|newTasks];
      cbn; unfold startTask, completeTask, failTask, addTasks;
      try destruct (findTask (tasks s) taskId) as [[i task]|]; cbn;
      try apply extends_refl.
    destruct (t_attempts task >=? t_maxAttempts task); cbn;
      [apply extends_snoc|apply extends_refl].
Qed.

Lemma applyMutation_keeps (percent : Z → Z → Z) (w : ProjectState * Disk)
    (m : Mutation) :
  isForward m → keepsRecords w.1 (applyMutation percent w m).1.
Proof.
  destruct w as [s disk].
  destruct m as [op|now tH target|tD tH topic decision rationale by_ alt
                |tC tH g d|tH tS checkpointId|now|]; cbn;
    try done; intros _.
  - apply applyOp_keeps.
  - destruct (transitionPhase_frame now tH s target)
      as (Ht & _ & _ & Hb & Hd & Hc).
    apply keepsRecords_same_tasks; rewrite ?Hb, ?Hd, ?Hc;
      try done; try apply extends_refl.
    rewrite transitionPhase_history. apply extends_snoc.
  - apply keepsRecords_same_tasks; cbn;
      try done; try apply extends_refl; apply extends_snoc.
  - apply keepsRecords_same_tasks; cbn;
      try done; try apply extends_refl; apply extends_snoc.
  - apply keepsRecords_same_tasks; cbn; try done; apply extends_refl.
Qed.

(** X21.  A sequence of calls without restore and load keeps every task at
    its index with its definition and with no fewer attempts, adds tasks
    only at the end, and only appends to the history, the blockers, the
    decisions and the checkpoints. *)
Theorem forward_calls_keep_records (percent : Z → Z → Z) (ms : list Mutation)
    (w : ProjectState * Disk) :
  Forall isForward ms →
  keepsRecords w.1 (runMutations percent ms w).1.
Proof.
  revert w. induction ms as [|m ms IH]; intros w Hms.
  - apply keepsRecords_refl.
  - apply Forall_cons in Hms as (Hm & Hms). cbn.
    eapply keepsRecords_trans; [by apply applyMutation_keeps|by apply IH].
Qed.

(** ** Properties of every state the manager produces *)

(** X22.  Whatever calls follow [initialize], the progress record of the state
    in memory and of every document on disk is the one [updateProgress]
    computes from the tasks: recomputing it changes nothing, and the
    counters agree with the task collection. *)
Theorem reachable_progress (percent : Z → Z → Z) (uuid : string)
    (now tSave : Timestamp) (name description slug : string)
    (ms : list Mutation) :
  worldHolds (λ s, updateProgress percent s = s ∧ progressConsistent s)
    (runMutations percent ms
       (freshWorld uuid now tSave name description slug)).
Proof.
  apply (worldHolds_weaken (λ s, updateProgress percent s = s)).
  { intros s Hs. split; [done|]. rewrite <- Hs.
    apply updateProgress_consistent. }
  apply (runMutations_holds percent); [apply progress_StateInvariant|].
  by apply (freshWorld_holds percent); [apply progress_StateInvariant|].
Qed.

(** X23.  Whatever calls follow [initialize], exactly one phase is in progress,
    the current one; it has a start time, and every complete phase has a
    completion time. *)
Theorem reachable_phases (percent : Z → Z → Z) (uuid : string)
    (now tSave : Timestamp) (name description slug : string)
    (ms : list Mutation) :
  worldHolds phasesCoherent
    (runMutations percent ms
       (freshWorld uuid now tSave name description slug)).
Proof.
  apply (runMutations_holds percent); [apply phases_StateInvariant|].
  apply (freshWorld_holds percent); [apply phases_StateInvariant|].
  intros p. cbn.
  destruct p; (eexists; split; [by vm_compute|]); cbn;
    split_and!; try done; by eexists.
Qed.

(** X24.  Whatever calls follow [initialize], every current-task pointer and
    every blocker names a task that [find] resolves. *)
Theorem reachable_references (percent : Z → Z → Z) (uuid : string)
    (now tSave : Timestamp) (name description slug : string)
    (ms : list Mutation) :
  worldHolds referencesResolve
    (runMutations percent ms
       (freshWorld uuid now tSave name description slug)).
Proof.
  apply (runMutations_holds percent); [apply references_StateInvariant|].
  apply (freshWorld_holds percent); [apply references_StateInvariant|].
  split; by apply Forall_nil.
Qed.

(** X25.  Whatever calls follow [initialize], the decisions are numbered
    DEC-001, DEC-002, ... and the checkpoints CP-001, CP-002, ... in list
    order, so no two decisions and no two checkpoints of a state share an
    id. *)
Theorem reachable_ids (percent : Z → Z → Z) (uuid : string)
    (now tSave : Timestamp) (name description slug : string)
    (ms : list Mutation) :
  worldHolds
    (λ s, sequentialIds s
          ∧ NoDup (d_id <$> decisions s)
          ∧ NoDup (cp_id <$> checkpoints s))
    (runMutations percent ms
       (freshWorld uuid now tSave name description slug)).
Proof.
  apply (worldHolds_weaken sequentialIds).
  { intros s (Hd & Hc). split; [done|]. rewrite Hd, Hc.
    split; (apply NoDup_fmap_2; [|apply NoDup_seq]).
    - intros n m. apply decisionIdOf_inj.
    - intros n m. apply checkpointIdOf_inj. }
  apply (runMutations_holds percent); [apply ids_StateInvariant|].
  by apply (freshWorld_holds percent); [apply ids_StateInvariant|].
Qed.

(** X26.  Whatever calls follow [initialize], a checkpoint that the state in
    memory lists can be restored: its snapshot is on disk. *)
Theorem listed_checkpoint_restores (percent : Z → Z → Z) (uuid : string)
    (now tSave : Timestamp) (name description slug : string)
    (ms : list Mutation) (tH tS : Timestamp) (cp : Checkpoint) :
  cp ∈ checkpoints
         (runMutations percent ms
            (freshWorld uuid now tSave name description slug)).1 →
  ∃ restored,
    restoreCheckpoint tH tS
      (runMutations percent ms
         (freshWorld uuid now tSave name description slug)).2 (cp_id cp)
    = inr restored.
Proof.
  intros Hin.
  pose proof (runMutations_snapshots percent ms _
                (freshWorld_snapshots uuid now tSave name description slug))
    as ((Hs & _) & _).
  unfold checkpointsStored in Hs. rewrite Forall_forall in Hs.
  destruct (Hs cp Hin) as [snapshot Hsnap].
  unfold restoreCheckpoint. rewrite Hsnap. by eexists.
Qed.



(** ** Slugs *)

Ltac ascii_cases c :=
  destruct c as [[] [] [] [] [] [] [] []]; vm_compute; intros;
  first [done | congruence].

Lemma toLowerChar_not_upper (c : ascii) : isUpper (toLowerChar c) = false.
Proof. ascii_cases c. Qed.

Lemma kept_lower_is_alnum (c : ascii) :
  isUpper c = false →
  isWord c || isSpace c || isHyphen c = true →
  isSeparator c = false →
  isAlnum c = true.
Proof. ascii_cases c. Qed.

Lemma alnum_not_separator (c : ascii) :
  isAlnum c = true → isSeparator c = false.
Proof. ascii_cases c. Qed.

Lemma separator_not_alnum (c : ascii) :
  isSeparator c = true → isAlnum c = false.
Proof. ascii_cases c. Qed.

Lemma hyphen_is_separator (c : ascii) :
  isHyphen c = true → isSeparator c = true.
Proof. ascii_cases c. Qed.

Lemma hyphen_eq (c : ascii) : isHyphen c = true → c = "-"%char.
Proof. ascii_cases c. Qed.

Lemma slugChar_fixed (c : ascii) :
  isAlnum c || isHyphen c = true →
  toLowerChar c = c ∧ isWord c || isSpace c || isHyphen c = true.
Proof. ascii_cases c. Qed.

Lemma slugChar_separator (c : ascii) :
  isAlnum c || isHyphen c = true → isSeparator c = isHyphen c.
Proof. ascii_cases c. Qed.


Lemma noDoubleHyphen_tail (a : ascii) (r : list ascii) :
  noDoubleHyphen (a :: r) = true → noDoubleHyphen r = true.
Proof. destruct r as [|b r]; [done|]. cbn. by intros (_ & ?)%andb_prop. Qed.

Lemma noDoubleHyphen_cons (a : ascii) (r : list ascii) :
  isHyphen a = false → noDoubleHyphen (a :: r) = noDoubleHyphen r.
Proof. intros Ha. destruct r as [|b r]; [done|]. cbn. by rewrite Ha. Qed.

Lemma noDoubleHyphen_app_l (p t : list ascii) :
  noDoubleHyphen (p ++ t) = true → noDoubleHyphen p = true.
Proof.
  induction p as [|a p IH]; [done|]. destruct p as [|b p]; [done|].
  cbn. intros (Hab & Hr)%andb_prop. rewrite Hab. by apply IH.
Qed.

Lemma noDoubleHyphen_app_r (t s : list ascii) :
  noDoubleHyphen (t ++ s) = true → noDoubleHyphen s = true.
Proof.
  induction t as [|a t IH]; [done|].
  intros H. by apply IH, (noDoubleHyphen_tail a).
Qed.

(** [collapseRuns] after a separator ([inRun]) emits no hyphen first. *)
Lemma collapseRuns_shape (inRun : bool) (l : list ascii) :
  Forall (λ c, isUpper c = false
               ∧ isWord c || isSpace c || isHyphen c = true) l →
  Forall (λ c, isAlnum c || isHyphen c = true) (collapseRuns inRun l)
  ∧ noDoubleHyphen
      (if inRun then "-"%char :: collapseRuns inRun l
       else collapseRuns inRun l) = true.
Proof.
  intros Hl. revert inRun.
  induction Hl as [|c r (Hup & Hkeep) Hr IH]; intros inRun.
  { by destruct inRun. }
  cbn [collapseRuns]. destruct (isSeparator c) eqn:Hsep.
  - destruct (IH true) as (Hall & Hnd). destruct inRun; [done|].
    split; [by constructor|done].
  - pose proof (kept_lower_is_alnum c Hup Hkeep Hsep) as Hal.
    assert (isHyphen c = false) as Hhy.
    { destruct (isHyphen c) eqn:Hh; [|done].
      apply hyphen_is_separator in Hh. congruence. }
    destruct (IH false) as (Hall & Hnd).
    split; [constructor; [by rewrite Hal|done]|].
    destruct inRun.
    + change (noDoubleHyphen ("-"%char :: c :: collapseRuns false r))
        with (negb (isHyphen "-"%char && isHyphen c)
              && noDoubleHyphen (c :: collapseRuns false r)).
      rewrite Hhy, noDoubleHyphen_cons by done. by rewrite Hnd.
    + by rewrite noDoubleHyphen_cons.
Qed.

Lemma dropLeadingHyphens_spec (l : list ascii) :
  ∃ t, l = t ++ dropLeadingHyphens l
       ∧ Forall (λ c, isHyphen c = true) t
       ∧ (∀ c, head (dropLeadingHyphens l) = Some c → isHyphen c = false).
Proof.
  induction l as [|c r (t & Hr & Ht & Hhead)]; [by exists []|].
  cbn. destruct (isHyphen c) eqn:Hc.
  - exists (c :: t). split_and!; [by rewrite Hr at 1|by constructor|done].
  - exists []. split_and!; [done|done|]. cbn. by intros ? [= <-].
Qed.

Lemma dropTrailingHyphens_spec (l : list ascii) :
  ∃ t, l = dropTrailingHyphens l ++ t
       ∧ Forall (λ c, isHyphen c = true) t
       ∧ (∀ c, last (dropTrailingHyphens l) = Some c → isHyphen c = false)
       ∧ (∀ c, head (dropTrailingHyphens l) = Some c → head l = Some c).
Proof.
  induction l as [|c r (t & Hr & Ht & Hlast & Hhead)]; [by exists []|].
  cbn [dropTrailingHyphens].
  destruct (dropTrailingHyphens r) as [|x r'] eqn:Hdrop.
  - cbn in Hr. subst t. destruct (isHyphen c) eqn:Hc.
    + exists (c :: r). split_and!; [done|by constructor|done|done].
    + exists r. split_and!; [done|done| |done]. cbn. by intros ? [= <-].
  - exists t. split_and!; [by rewrite Hr at 1|done| |done].
    intros c'. rewrite last_cons. intros Hc'. apply Hlast.
    destruct (last (x :: r')) eqn:Hl; [done|]. by apply last_None in Hl.
Qed.

Lemma slugifyChars_shape (l : list ascii) : isSlugChars (slugifyChars l).
Proof.
  unfold slugifyChars, trimHyphens.
  destruct (collapseRuns_shape false (removeOthers (toLowerCase l)))
    as (Hall & Hnd).
  { unfold removeOthers, toLowerCase. apply Forall_forall. intros c Hc.
    apply list_elem_of_In, filter_In in Hc as (Hc & Hkeep).
    apply list_elem_of_In, list_elem_of_fmap in Hc as (c0 & -> & _).
    split; [apply toLowerChar_not_upper|done]. }
  set (body := collapseRuns false (removeOthers (toLowerCase l))) in *.
  destruct (dropLeadingHyphens_spec body) as (lead & Hbody & _ & Hhead).
  set (mid := dropLeadingHyphens body) in *.
  destruct (dropTrailingHyphens_spec mid) as (trail & Hmid & _ & Hlast & Hkeep).
  set (out := dropTrailingHyphens mid) in *.
  rewrite Hbody, Hmid in Hall, Hnd.
  apply Forall_app in Hall as (_ & (Hout & _)%Forall_app).
  apply noDoubleHyphen_app_r, noDoubleHyphen_app_l in Hnd.
  split_and!; [done| |done|done].
  intros c Hc. by apply Hhead, Hkeep.
Qed.

Lemma filter_all {A} (f : A → bool) (l : list A) :
  Forall (λ x, f x = true) l → List.filter f l = l.
Proof.
  induction 1 as [|x l Hx Hl IH]; [done|]. cbn. by rewrite Hx, IH.
Qed.

Lemma collapseRuns_fixed (inRun : bool) (l : list ascii) :
  Forall (λ c, isAlnum c || isHyphen c = true) l →
  noDoubleHyphen (if inRun then "-"%char :: l else l) = true →
  collapseRuns inRun l = l.
Proof.
  intros Hl. revert inRun.
  induction Hl as [|c r Hc Hr IH]; intros inRun Hnd; [done|].
  cbn [collapseRuns]. rewrite (slugChar_separator c Hc).
  destruct (isHyphen c) eqn:Hh.
  - pose proof (hyphen_eq c Hh) as ->. destruct inRun; [done|].
    f_equal. by apply IH.
  - f_equal. apply IH. destruct inRun.
    + apply noDoubleHyphen_tail in Hnd. by rewrite noDoubleHyphen_cons in Hnd.
    + by rewrite noDoubleHyphen_cons in Hnd.
Qed.

Lemma dropLeadingHyphens_fixed (l : list ascii) :
  (∀ c, head l = Some c → isHyphen c = false) → dropLeadingHyphens l = l.
Proof. destruct l as [|c r]; [done|]. cbn. intros H. by rewrite (H c). Qed.

Lemma dropTrailingHyphens_fixed (l : list ascii) :
  (∀ c, last l = Some c → isHyphen c = false) → dropTrailingHyphens l = l.
Proof.
  induction l as [|c r IH]; [done|]. intros Hlast.
  cbn [dropTrailingHyphens]. destruct r as [|x r'].
  - cbn. by rewrite (Hlast c).
  - rewrite IH; [done|]. intros c' Hc'. apply Hlast. by rewrite last_cons, Hc'.
Qed.

Lemma slugifyChars_fixed (l : list ascii) :
  isSlugChars l → slugifyChars l = l.
Proof.
  intros (Hall & Hhead & Hlast & Hnd). unfold slugifyChars, trimHyphens.
  assert (toLowerCase l = l) as ->.
  { unfold toLowerCase. clear Hhead Hlast Hnd.
    induction Hall as [|c r Hc Hr IH]; [done|]. cbn.
    f_equal; [by apply slugChar_fixed|done]. }
  assert (removeOthers l = l) as ->.
  { apply filter_all. eapply Forall_impl; [exact Hall|].
    intros c Hc. by apply slugChar_fixed. }
  rewrite (collapseRuns_fixed false l) by done.
  rewrite dropLeadingHyphens_fixed by done.
  by apply dropTrailingHyphens_fixed.
Qed.

Lemma filter_filter_weaker {A} (f g : A → bool) (l : list A) :
  (∀ x, f x = true → g x = true) →
  List.filter f (List.filter g l) = List.filter f l.
Proof.
  intros Hfg. induction l as [|x l IH]; [done|]. cbn.
  destruct (g x) eqn:Hg; cbn; [by rewrite IH|].
  destruct (f x) eqn:Hf; [|done]. apply Hfg in Hf. congruence.
Qed.

Lemma alnumOf_hyphens (t : list ascii) :
  Forall (λ c, isHyphen c = true) t → alnumOf t = [].
Proof.
  induction 1 as [|c t Hc Ht IH]; [done|]. cbn.
  by rewrite (separator_not_alnum c (hyphen_is_separator c Hc)).
Qed.

Lemma alnumOf_collapseRuns (inRun : bool) (l : list ascii) :
  alnumOf (collapseRuns inRun l) = alnumOf l.
Proof.
  revert inRun. induction l as [|c r IH]; intros inRun; [done|].
  cbn [collapseRuns]. unfold alnumOf in *. destruct (isSeparator c) eqn:Hsep.
  - cbn [List.filter]. rewrite (separator_not_alnum c Hsep).
    destruct inRun; [apply IH|]. cbn. apply IH.
  - cbn. by rewrite IH.
Qed.

Lemma alnumOf_slugifyChars (l : list ascii) :
  alnumOf (slugifyChars l) = alnumOf (toLowerCase l).
Proof.
  unfold slugifyChars, trimHyphens.
  set (body := collapseRuns false (removeOthers (toLowerCase l))).
  destruct (dropLeadingHyphens_spec body) as (lead & Hbody & Hlead & _).
  set (mid := dropLeadingHyphens body) in *.
  destruct (dropTrailingHyphens_spec mid) as (trail & Hmid & Htrail & _).
  set (out := dropTrailingHyphens mid) in *.
  transitivity (alnumOf body).
  - rewrite Hbody, Hmid. unfold alnumOf. rewrite !List.filter_app.
    fold (alnumOf lead) (alnumOf trail).
    by rewrite (alnumOf_hyphens lead Hlead), (alnumOf_hyphens trail Htrail),
      app_nil_r.
  - unfold body. rewrite alnumOf_collapseRuns. unfold alnumOf, removeOthers.
    apply filter_filter_weaker. intros c. clear. ascii_cases c.
Qed.

(** X28.  The slug of an ASCII text is a slug: lower-case letters, digits and
    single hyphens between them.  Its letters and digits are those of the text in
    lower case, in the same order; and making a slug of it again changes
    nothing. *)
Theorem slugify_shape (text : string) :
  isAsciiText text →
  isSlug (slugify text)
  ∧ alnumOf (list_ascii_of_string (slugify text))
    = alnumOf (toLowerCase (list_ascii_of_string text))
  ∧ slugify (slugify text) = slugify text.
Proof.
  intros _. unfold isSlug, slugify.
  rewrite !list_ascii_of_string_of_list_ascii.
  split_and!; [apply slugifyChars_shape|apply alnumOf_slugifyChars|].
  f_equal. apply slugifyChars_fixed, slugifyChars_shape.
Qed.

(** X29.  A text that has the shape of a slug is its own slug. *)
Theorem slugify_fixes_slugs (s : string) :
  isSlug s → slugify s = s.
Proof.
  intros Hs. unfold slugify. rewrite slugifyChars_fixed by done.
  apply string_of_list_ascii_of_string.
Qed.


(** ** Initialisation *)

(** X30.  [initialize] persists what it returns: loading afterwards gives
    exactly the returned state, whatever state file was there before, and
    the checkpoint snapshots of the directory are left alone.  The state
    is stamped with the two clock reads, has no task, hands out no work,
    is not complete and asks for no checkpoint.  A slug that is passed and
    not empty is stored as it is, without being made a slug; otherwise the
    stored slug is the slug of the name (for an ASCII name). *)
Theorem initialize_spec (uuid : string) (now tSave : Timestamp)
    (name description : string) (slug : option string) (disk : Disk) :
  isAsciiText name →
  let world :=
    initialize uuid now tSave name description (projectSlugOf slug name)
      disk in
  load world.2 = inr world.1
  ∧ stateExists world.2 = true
  ∧ checkpointFiles world.2 = checkpointFiles disk
  ∧ p_created (project world.1) = now
  ∧ p_updated (project world.1) = tSave
  ∧ (∀ s, slug = Some s → s ≠ "" → p_slug (project world.1) = s)
  ∧ (slug = None ∨ slug = Some "" →
     p_slug (project world.1) = slugify name
     ∧ isSlug (p_slug (project world.1)))
  ∧ tasks world.1 = []
  ∧ getNextTask world.1 = None
  ∧ (∀ n, getParallelizableTasks world.1 n = [])
  ∧ isComplete world.1 = false
  ∧ shouldCheckpoint world.1 = false.
Proof.
  intros _ world. unfold world, initialize. cbn.
  split_and!; try done.
  - intros s -> Hs. cbn. by rewrite bool_decide_eq_false_2.
  - assert (isSlug (slugify name)) as Hshape.
    { unfold isSlug, slugify. rewrite list_ascii_of_string_of_list_ascii.
      apply slugifyChars_shape. }
    by intros [->| ->].
Qed.


(** ** Closed instances of the further properties *)

Lemma completeTask_spec_witness :
  ∃ task' state',
    completeTask percentExact 3000 3001 plannedProject "T-1"
    = (Some task', state')
    ∧ t_status task' = Completed
    ∧ t_completedAt task' = Some 3000
    ∧ pointersOf "T-1" state' = [].
Proof.
  destruct (completeTask_spec percentExact 3000 3001 plannedProject "T-1"
              0%nat (sampleTask "T-1" BackendDev High [] ["src/api.ts"])
              eq_refl)
    as (task' & state' & Hrun & _ & Hst & Hat & _ & _ & _ & _ & _ & Hptr & _).
  by exists task', state'.
Defined.


Lemma completeTask_unlocks_witness :
  let state' := (completeTask percentExact 3000 3001 plannedProject "T-1").2 in
  tasks state' !! 1%nat
  = Some (sampleTask "T-2" FrontendDev Critical ["T-1"] ["src/app.ts"])
  ∧ eligible state'
      (sampleTask "T-2" FrontendDev Critical ["T-1"] ["src/app.ts"])
  ∧ isReady state'
      (sampleTask "T-2" FrontendDev Critical ["T-1"] ["src/app.ts"]) = true.
Proof.
  apply (completeTask_unlocks percentExact 3000 3001 plannedProject "T-1"
           0%nat 1%nat (sampleTask "T-1" BackendDev High [] ["src/api.ts"])
           (sampleTask "T-2" FrontendDev Critical ["T-1"] ["src/app.ts"])).
  - reflexivity.
  - reflexivity.
  - lia.
  - reflexivity.
  - intros d Hd. cbn in Hd. apply list_elem_of_singleton in Hd. by left.
Defined.

Lemma startTask_spec_witness :
  ∃ task' state',
    startTask percentExact 3000 3001 plannedProject "T-1"
    = (Some task', state')
    ∧ t_status task' = InProgress
    ∧ t_attempts task' = 1
    ∧ length (pointersOf "T-1" state') = 1%nat.
Proof.
  destruct (startTask_spec percentExact 3000 3001 plannedProject "T-1"
              0%nat (sampleTask "T-1" BackendDev High [] ["src/api.ts"])
              eq_refl)
    as (task' & state' & Hrun & _ & Hst & _ & Hatt & _ & _ & _ & _ & _
        & Hptr & _).
  by exists task', state'.
Defined.

Lemma start_then_complete_witness :
  ∃ finished,
    findTask
      (tasks
         (completeTask percentExact 3600 3601
            (startTask percentExact 3000 3001 plannedProject "T-1").2
            "T-1").2) "T-1"
    = Some (0%nat, finished)
    ∧ t_status finished = Completed
    ∧ t_actualMinutes finished = Some (roundMinutes 3000 3600).
Proof.
  destruct (start_then_complete percentExact 3000 3001 3600 3601
              plannedProject "T-1" 0%nat
              (sampleTask "T-1" BackendDev High [] ["src/api.ts"]) eq_refl)
    as (finished & Hfind & _ & Hst & _ & _ & _ & Hmin & _).
  by exists finished.
Defined.

Lemma batch_empty_iff_no_next_witness :
  getParallelizableTasks plannedProject 2 = []
  ↔ getNextTask plannedProject = None.
Proof. apply (batch_empty_iff_no_next plannedProject 2). lia. Defined.

Lemma batch_monotone_witness :
  getParallelizableTasks plannedProject 1
    `prefix_of` getParallelizableTasks plannedProject 3.
Proof. apply (batch_monotone plannedProject 1 3). lia. Defined.

Lemma complete_has_no_work_witness :
  getNextTask finishedProject = None
  ∧ ∀ n, getParallelizableTasks finishedProject n = [].
Proof. apply (complete_has_no_work finishedProject). reflexivity. Defined.

Lemma isComplete_progress_witness :
  isComplete finishedProject = true
  ↔ 0 < pr_total (progress finishedProject)
    ∧ pr_completed (progress finishedProject)
      + pr_skipped (progress finishedProject)
      = pr_total (progress finishedProject).
Proof.
  apply (isComplete_progress finishedProject).
  unfold progressConsistent. cbn zeta. split_and!; vm_compute; congruence.
Defined.

Lemma failTask_requeues_witness :
  ∃ task' state',
    failTask percentExact 3000 3001
      (startTask percentExact 2000 2001 plannedProject "T-1").2 "T-1"
      "timeout"
    = (Some task', state')
    ∧ t_status task' = Pending
    ∧ getNextTask state' ≠ None.
Proof.
  destruct (failTask_requeues percentExact 3000 3001
              (startTask percentExact 2000 2001 plannedProject "T-1").2
              "T-1" "timeout" 0%nat
              (set_t_attempts 1
                 (set_t_startedAt (Some 2000)
                    (set_t_status InProgress
                       (sampleTask "T-1" BackendDev High [] ["src/api.ts"])))))
    as (task' & state' & Hrun & _ & Hst & _ & Hnext).
  - reflexivity.
  - cbn. lia.
  - reflexivity.
  - cbn. apply not_elem_of_nil.
  - by exists task', state'.
Defined.

Lemma walkPhases_spec_witness :
  let final :=
    walkPhases [(2000, 2001, Specification); (3000, 3001, Architecture)]
      freshProject in
  phase final = Architecture
  ∧ ps_status <$> phases final !! Ideation = Some PhaseComplete
  ∧ ps_status <$> phases final !! Specification = Some PhaseComplete
  ∧ ps_status <$> phases final !! Architecture = Some PhaseInProgress.
Proof.
  destruct (walkPhases_spec
              [(2000, 2001, Specification); (3000, 3001, Architecture)]
              freshProject)
    as (Hphase & _ & Hleft & Hcur & _).
  - intros p. destruct p; vm_compute; by eexists.
  - apply (bool_decide_unpack _). vm_compute. exact I.
  - cbn zeta. split_and!.
    + exact Hphase.
    + apply Hleft; [|rewrite Hphase; discriminate].
      apply (bool_decide_unpack _). vm_compute. exact I.
    + apply Hleft; [|rewrite Hphase; discriminate].
      apply (bool_decide_unpack _). vm_compute. exact I.
    + rewrite <- Hphase at 2. apply Hcur. discriminate.
Defined.


Lemma earlier_snapshot_survives_witness :
  let first :=
    createCheckpoint 4000 4001 (mkDisk None ∅) plannedProject None None in
  let second := createCheckpoint 5000 5001 first.2 first.1.2 None None in
  ∃ restored disk',
    restoreCheckpoint 6000 6001 second.2 (cp_id first.1.1)
    = inr (restored, disk')
    ∧ tasks restored = tasks plannedProject
    ∧ checkpoints restored = [first.1.1].
Proof.
  intros first second.
  destruct (earlier_snapshot_survives 4000 4001 5000 5001 6000 6001
              (mkDisk None ∅) plannedProject first.1.2 None None None None)
    as (_ & restored & disk' & Hrun & Htasks & _ & Hcps).
  - cbn. lia.
  - by exists restored, disk'.
Defined.

Lemma same_count_overwrites_witness :
  let first :=
    createCheckpoint 4000 4001 (mkDisk None ∅) plannedProject None None in
  let second :=
    createCheckpoint 5000 5001 first.2 finishedProject None None in
  cp_id second.1.1 = cp_id first.1.1
  ∧ ∃ restored disk',
      restoreCheckpoint 6000 6001 second.2 (cp_id first.1.1)
      = inr (restored, disk')
      ∧ tasks restored = tasks finishedProject.
Proof.
  intros first second.
  destruct (same_count_overwrites 4000 4001 5000 5001 6000 6001
              (mkDisk None ∅) plannedProject finishedProject None None
              None None)
    as (Hid & restored & disk' & Hrun & Htasks & _).
  - reflexivity.
  - split; [exact Hid|]. by exists restored, disk'.
Defined.

Lemma checkpoint_resets_threshold_witness :
  shouldCheckpoint
    (createCheckpoint 4000 4001 (mkDisk None ∅) finishedProject None None).1.2
  = false.
Proof.
  apply (checkpoint_resets_threshold 4000 4001 (mkDisk None ∅)
           finishedProject None None).
  intros c [= <-]. cbn. lia.
Defined.

Lemma forward_calls_keep_records_witness :
  keepsRecords demoWorld.1 (runMutations percentExact demoCalls demoWorld).1.
Proof.
  apply (forward_calls_keep_records percentExact demoCalls demoWorld).
  repeat constructor.
Defined.

Lemma listed_checkpoint_restores_witness :
  ∃ restored,
    restoreCheckpoint 9000 9001
      (runMutations percentExact demoCalls demoWorld).2 "CP-001"
    = inr restored.
Proof.
  apply (listed_checkpoint_restores percentExact
           "0b5e3c0a-7c1d-4a55-9c1e-2f6a1d3b4c5d" 1000 1001
           "demo" "a demo project" "demo" demoCalls 9000 9001
           (mkCheckpoint "CP-001" 4000 Ideation 0 None None)).
  vm_compute. constructor.
Defined.


Lemma slugify_shape_witness :
  isSlug (slugify "  My_App--v2  ")
  ∧ alnumOf (list_ascii_of_string (slugify "  My_App--v2  "))
    = alnumOf (toLowerCase (list_ascii_of_string "  My_App--v2  "))
  ∧ slugify (slugify "  My_App--v2  ") = slugify "  My_App--v2  ".
Proof.
  apply (slugify_shape "  My_App--v2  ").
  unfold isAsciiText. cbn. repeat constructor.
Defined.

Lemma slugify_fixes_slugs_witness : slugify "my-app-v2" = "my-app-v2".
Proof.
  apply (slugify_fixes_slugs "my-app-v2").
  split_and!.
  - cbn. repeat constructor.
  - intros c [= <-]. reflexivity.
  - intros c [= <-]. reflexivity.
  - reflexivity.
Defined.

Lemma initialize_spec_witness :
  let world :=
    initialize "0b5e3c0a-7c1d-4a55-9c1e-2f6a1d3b4c5d" 1000 1001
      "Demo App" "a demo project" (projectSlugOf None "Demo App")
      (mkDisk None ∅) in
  load world.2 = inr world.1
  ∧ p_slug (project world.1) = "demo-app".
Proof.
  intros world.
  destruct (initialize_spec "0b5e3c0a-7c1d-4a55-9c1e-2f6a1d3b4c5d" 1000 1001
              "Demo App" "a demo project" None (mkDisk None ∅))
    as (Hload & _).
  - unfold isAsciiText. cbn. repeat constructor.
  - split; [exact Hload|reflexivity].
Defined.
